(** * Fatiando a Terra: 3D gravity inversion with right rectangular prisms

    A shallow embedding of [fatiando/inversion/pgrav3d.py] and the properties
    of its data-vector assembler, Jacobian builder, first-derivative operator
    and solve entry point.

    Python values are modelled as follows.
    - Floating point numbers are an abstract type [num] with the operations
      the module uses ([NumOps]); the entries of the finite-difference
      matrix, which are only ever 0, 1 and -1, are integers.
    - Dictionaries used as structures (a mesh cell, a data grid) are records;
      a key that the code tests or deletes (['value']) is an optional field.
    - The data dictionary [{'gz': grid, ...}] is an association list in the
      order of [keys()], holding references to the grid objects.
    - Grid and cell objects live in a store indexed by references, so that
      two names for one object see each other's writes.
    - Module globals are the fields of [state]; a function of the module is
      a state transformer that returns a value or a raised exception. *)

From Stdlib Require Import ZArith Lia.
From stdpp Require Import base strings functions list.

Local Open Scope string_scope.
Local Open Scope list_scope.

(** ** Exceptions *)

Inductive assertion :=
  | NoMeshDefined            (* "Can't build Jacobian. No mesh defined" *)
  | NoDataDefined            (* "Can't build Jacobian. No data defined" *)
  | NoMeshFirstDeriv         (* "Can't build first derivative matrix.No mesh defined" *)
  | MissingValueKey (key : string)          (* "Missing 'value' key in %s data" *)
  | InvalidGravityComponent (key : string). (* "Invalid gravity component (data key): %s" *)

Inductive error :=
  | AssertionError (msg : assertion)
  | KeyError (key : string)
  | IndexError
  | ValueError
  | TypeError
  | AttributeError
  | DimensionMismatchError.

(** The names the specification gives to the failed assertions. *)
Definition InvalidComponentError (key : string) : error :=
  AssertionError (InvalidGravityComponent key).
Definition MissingObservedValuesError (key : string) : error :=
  AssertionError (MissingValueKey key).
Definition MissingMeshError : error := AssertionError NoMeshDefined.
Definition MissingDataError : error := AssertionError NoDataDefined.

(** ** The error monad of the index loops *)

Definition ebind {A B} (m : error + A) (f : A → error + B) : error + B :=
  match m with
  | inl e => inl e
  | inr a => f a
  end.

Notation "x ←! m ; k" := (ebind m (fun x => k))
  (at level 100, m at next level, right associativity).

(** [for _ in xrange(n): body], for a body that does not read the loop
    variable. *)
Fixpoint xrange_loop {S : Type} (n : nat) (body : S → error + S) (s : S)
  : error + S :=
  match n with
  | 0 => inr s
  | S n' => s' ←! body s; xrange_loop n' body s'
  end.

(** ** The first-derivative finite-difference matrix *)

Module FirstDeriv.

Abbreviation matrix := (list (list Z)).

(** [numpy.zeros((rows, cols))]; a negative dimension raises [ValueError]. *)
Definition numpy_zeros (rows cols : Z) : error + matrix :=
  if decide (rows < 0 ∨ cols < 0)%Z then inl ValueError
  else inr (replicate (Z.to_nat rows) (replicate (Z.to_nat cols) 0%Z)).

(** [a[i][j] = v] for non-negative [i], [j]; out of range raises
    [IndexError]. *)
Definition setitem (a : matrix) (i j : nat) (v : Z) : error + matrix :=
  match a !! i with
  | None => inl IndexError
  | Some row =>
      if decide (j < length row) then inr (<[i := <[j := v]> row]> a)
      else inl IndexError
  end.

(** The loop state: [(first_deriv, deriv_i, param_i)]. *)
Abbreviation loop_state := (matrix * nat * nat)%type.

(** The body shared by the three innermost loops:
    [first_deriv[deriv_i][param_i] = 1;
     first_deriv[deriv_i][param_i + offset] = -1;
     deriv_i += 1; param_i += 1]. *)
Definition deriv_pair (offset : nat) (st : loop_state) : error + loop_state :=
  let '(first_deriv, deriv_i, param_i) := st in
  first_deriv ←! setitem first_deriv deriv_i param_i 1;
  first_deriv ←! setitem first_deriv deriv_i (param_i + offset) (-1);
  inr (first_deriv, deriv_i + 1, param_i + 1).

(** [param_i += c] *)
Definition skip_params (c : nat) (st : loop_state) : error + loop_state :=
  let '(first_deriv, deriv_i, param_i) := st in
  inr (first_deriv, deriv_i, param_i + c).

(** [param_i = 0] *)
Definition reset_params (st : loop_state) : loop_state :=
  let '(first_deriv, deriv_i, _) := st in (first_deriv, deriv_i, 0).

(** Derivatives in the x direction. *)
Definition x_derivatives (nx ny nz : nat) (st : loop_state) : error + loop_state :=
  xrange_loop nz (fun st =>
    xrange_loop ny (fun st =>
      st ←! xrange_loop (nx - 1) (deriv_pair 1) st;
      skip_params 1 st) st) st.

(** Derivatives in the y direction. *)
Definition y_derivatives (nx ny nz : nat) (st : loop_state) : error + loop_state :=
  xrange_loop nz (fun st =>
    st ←! xrange_loop (ny - 1) (fun st =>
            xrange_loop nx (deriv_pair nx) st) st;
    skip_params nx st) st.

(** Derivatives in the z direction. *)
Definition z_derivatives (nx ny nz : nat) (st : loop_state) : error + loop_state :=
  xrange_loop (nz - 1) (fun st =>
    xrange_loop ny (fun st =>
      xrange_loop nx (deriv_pair (nx * ny)) st) st) st.

(** The body of [_build_pgrav3d_first_deriv] after [nz, ny, nx = _mesh.shape]. *)
Definition first_deriv_of_shape (nz ny nx : nat) : error + matrix :=
  let deriv_num :=
    ((Z.of_nat nx - 1) * Z.of_nat ny * Z.of_nat nz
     + (Z.of_nat ny - 1) * Z.of_nat nx * Z.of_nat nz
     + (Z.of_nat nz - 1) * Z.of_nat nx * Z.of_nat ny)%Z in
  first_deriv ←! numpy_zeros deriv_num (Z.of_nat (nx * ny * nz));
  st ←! x_derivatives nx ny nz (first_deriv, 0, 0);
  st ←! y_derivatives nx ny nz (reset_params st);
  st ←! z_derivatives nx ny nz (reset_params st);
  inr st.1.1.

(** *** What the loops produce *)

(** A row of width [C] with [+1] at column [p] and [-1] at column [q]. *)
Definition pair_row (C p q : nat) : list Z :=
  <[q := (-1)%Z]> (<[p := 1%Z]> (replicate C 0%Z)).

(** The rows emitted by [n] rounds of a body that emits [F p] at parameter
    index [p] and then advances the index by [d]. *)
Fixpoint emit (n : nat) (F : nat → list (list Z)) (p d : nat) : list (list Z) :=
  match n with
  | 0 => []
  | S n' => F p ++ emit n' F (p + d) d
  end.

Definition x_rows (C nx ny nz : nat) : list (list Z) :=
  emit nz (fun p => emit ny (fun p =>
    emit (nx - 1) (fun p => [pair_row C p (p + 1)]) p 1) p nx) 0 (ny * nx).

Definition y_rows (C nx ny nz : nat) : list (list Z) :=
  emit nz (fun p => emit (ny - 1) (fun p =>
    emit nx (fun p => [pair_row C p (p + nx)]) p 1) p nx) 0 (ny * nx).

Definition z_rows (C nx ny nz : nat) : list (list Z) :=
  emit (nz - 1) (fun p => emit ny (fun p =>
    emit nx (fun p => [pair_row C p (p + nx * ny)]) p 1) p nx) 0 (ny * nx).

(** The flattened parameter index of cell [(i, j, k)]. *)
Definition param_index (nx ny i j k : nat) : nat := i + j * nx + k * nx * ny.

(** The loop state when the rows [done] are written, [r] rows are still
    zero and the parameter index is [p]. *)
Definition st_of (C : nat) (done : matrix) (r p : nat) : loop_state :=
  (done ++ replicate r (replicate C 0%Z), length done, p).

(** A row of width [C] that has exactly one [+1] and one [-1], at two
    columns [p < q] that are 1, [nx] or [nx * ny] apart, and zeros
    elsewhere. *)
Definition unit_pair_row (C nx ny : nat) (row : list Z) : Prop :=
  ∃ p q, p < q ∧ q < C ∧ (q - p = 1 ∨ q - p = nx ∨ q - p = nx * ny) ∧
    ∀ c, c < C →
      row !! c = Some (if decide (c = p) then 1%Z
                       else if decide (c = q) then (-1)%Z else 0%Z).

End FirstDeriv.

(** ** Numbers, objects and the module state *)

(** The floating point operations the module and its solver use. *)
Class NumOps (num : Type) := {
  num_zero : num;
  num_one : num;                    (* the unit density [1.] *)
  num_1e_7 : num;                   (* [10**(-7)] *)
  num_add : num → num → num;
  num_sub : num → num → num;
  num_mul : num → num → num;
  num_div : num → num → num;
  num_ltb : num → num → bool        (* [a < b] *)
}.

(** References to objects in the store. *)
Abbreviation loc := nat (only parsing).

(** The data dictionary: component name to grid object, in [keys()] order. *)
Abbreviation data := (list (string * loc)) (only parsing).

(** [field in data.keys()] *)
Definition has_key (d : data) (field : string) : bool :=
  bool_decide (field ∈ d.*1).

(** [d[field]] for a dictionary with string keys. *)
Fixpoint getitem {V} (d : list (string * V)) (field : string) : option V :=
  match d with
  | [] => None
  | (k, v) :: d' => if decide (k = field) then Some v else getitem d' field
  end.

(** The mesh: a 3-D array of cell objects of shape [(nz, ny, nx)];
    [ravel] lists the cells in flattened order. *)
Record mesh := Mesh {
  shape : nat * nat * nat;
  ravel : list loc
}.

(** [mesh.size] *)
Definition size (m : mesh) : nat := length (ravel m).

(** The canonical component order. *)
Definition fields : list string :=
  ["gz"; "gxx"; "gxy"; "gxz"; "gyy"; "gyz"; "gzz"].

(** [function(dens, x1, x2, y1, y2, z1, z2, x, y, z)]: a forward kernel of
    [fatiando.gravity.prism]. *)
Definition calculator (num : Type) : Type :=
  num → num → num → num → num → num → num → num → num → num → num.

(** The seven kernels of [fatiando.gravity.prism]. *)
Class Prism (num : Type) := {
  prism_gz : calculator num;
  prism_gxx : calculator num;
  prism_gxy : calculator num;
  prism_gxz : calculator num;
  prism_gyy : calculator num;
  prism_gyz : calculator num;
  prism_gzz : calculator num
}.

Section Pgrav3d.
Context {num : Type} `{NumOps num} `{Prism num}.

(** A mesh cell: its six bounds and the ['value'] key, absent until filled. *)
Record cell := Cell {
  cell_x1 : num; cell_x2 : num;
  cell_y1 : num; cell_y2 : num;
  cell_z1 : num; cell_z2 : num;
  cell_value : option num
}.

(** A data grid: parallel coordinate arrays and the optional ['value'] array. *)
Record grid := Grid {
  grid_x : list num;
  grid_y : list num;
  grid_z : list num;
  grid_value : option (list num)
}.

Definition set_cell_value (v : num) (c : cell) : cell :=
  Cell (cell_x1 c) (cell_x2 c) (cell_y1 c) (cell_y2 c) (cell_z1 c) (cell_z2 c)
       (Some v).

Definition set_grid_value (v : option (list num)) (g : grid) : grid :=
  Grid (grid_x g) (grid_y g) (grid_z g) v.

(** The module globals, the object store, and a counter of forward-kernel
    invocations (what a counting mock of the kernel would record). *)
Record state := State {
  _jacobian : option (list (list num));
  _mesh : option mesh;
  _data : option data;
  _data_vector : option (list num);
  cells : loc → cell;
  grids : loc → grid;
  kernel_calls : nat
}.

Definition with_jacobian (j : option (list (list num))) (s : state) : state :=
  State j (_mesh s) (_data s) (_data_vector s) (cells s) (grids s) (kernel_calls s).
Definition with_mesh (m : option mesh) (s : state) : state :=
  State (_jacobian s) m (_data s) (_data_vector s) (cells s) (grids s) (kernel_calls s).
Definition with_data (d : option data) (s : state) : state :=
  State (_jacobian s) (_mesh s) d (_data_vector s) (cells s) (grids s) (kernel_calls s).
Definition with_data_vector (v : option (list num)) (s : state) : state :=
  State (_jacobian s) (_mesh s) (_data s) v (cells s) (grids s) (kernel_calls s).
Definition with_cells (c : loc → cell) (s : state) : state :=
  State (_jacobian s) (_mesh s) (_data s) (_data_vector s) c (grids s) (kernel_calls s).
Definition with_grids (g : loc → grid) (s : state) : state :=
  State (_jacobian s) (_mesh s) (_data s) (_data_vector s) (cells s) g (kernel_calls s).
Definition with_kernel_calls (n : nat) (s : state) : state :=
  State (_jacobian s) (_mesh s) (_data s) (_data_vector s) (cells s) (grids s) n.

(** ** The monad of module functions: state and exceptions *)

Definition M (A : Type) : Type := state → (error + A) * state.

Definition ret {A} (a : A) : M A := fun s => (inr a, s).
Definition raise {A} (e : error) : M A := fun s => (inl e, s).
Definition bind {A B} (m : M A) (f : A → M B) : M B :=
  fun s => match m s with
           | (inl e, s') => (inl e, s')
           | (inr a, s') => f a s'
           end.
Definition get {A} (f : state → A) : M A := fun s => (inr (f s), s).
Definition modify (f : state → state) : M unit := fun s => (inr tt, f s).
Definition lift {A} (r : error + A) : M A := fun s => (r, s).

Notation "x ←$ m ; k" := (bind m (fun x => k))
  (at level 100, m at next level, right associativity).
Notation "m ;;$ k" := (bind m (fun _ => k))
  (at level 100, right associativity).

(** [assert cond, msg] *)
Definition assert (cond : bool) (msg : assertion) : M unit :=
  if cond then ret tt else raise (AssertionError msg).

(** [for a in l: body] *)
Fixpoint for_each {A} (l : list A) (body : A → M unit) : M unit :=
  match l with
  | [] => ret tt
  | a :: l' => body a ;;$ for_each l' body
  end.

(** [[f(a) for a in l]] *)
Fixpoint comprehension {A B} (f : A → M B) (l : list A) : M (list B) :=
  match l with
  | [] => ret []
  | a :: l' => b ←$ f a; bs ←$ comprehension f l'; ret (b :: bs)
  end.

(** ** clear *)

Definition clear : M unit :=
  modify (with_jacobian None) ;;$
  modify (with_mesh None) ;;$
  modify (with_data None) ;;$
  modify (with_data_vector None).

(** ** fill_mesh *)

(** [cell['value'] = value] *)
Definition store_cell_value (c : loc) (value : num) : M unit :=
  modify (fun s => with_cells (alter (set_cell_value value) c (cells s)) s).

Definition fill_mesh (estimate : list num) (mesh : mesh) : M unit :=
  for_each (zip estimate (ravel mesh))
           (fun '(value, cell) => store_cell_value cell value).

(** ** extract_data_vector *)

(** [data[field]] on a key that may be missing. *)
Definition lookup_field (d : data) (field : string) : M loc :=
  match getitem d field with
  | Some l => ret l
  | None => raise (KeyError field)
  end.

(** [g['value']] *)
Definition read_value (g : loc) : M (list num) :=
  s ←$ get grids;
  match grid_value (s g) with
  | Some v => ret v
  | None => raise (KeyError "value")
  end.

(** [del g['value']] *)
Definition del_value (g : loc) : M unit :=
  s ←$ get grids;
  match grid_value (s g) with
  | Some _ => modify (fun s => with_grids (alter (set_grid_value None) g (grids s)) s)
  | None => raise (KeyError "value")
  end.

(** One of the seven blocks of [extract_data_vector]:
    [if field in data.keys():
         data_vector.extend(data[field]['value'])
         if inplace: del data[field]['value']] *)
Definition extend_with (d : data) (inplace : bool) (field : string)
    (data_vector : list num) : M (list num) :=
  if has_key d field then
    g ←$ lookup_field d field;
    v ←$ read_value g;
    let data_vector := data_vector ++ v in
    (if inplace then g ←$ lookup_field d field; del_value g else ret tt) ;;$
    ret data_vector
  else ret data_vector.

Definition extract_data_vector (d : data) (inplace : bool) : M (list num) :=
  let data_vector := [] in
  data_vector ←$ extend_with d inplace "gz" data_vector;
  data_vector ←$ extend_with d inplace "gxx" data_vector;
  data_vector ←$ extend_with d inplace "gxy" data_vector;
  data_vector ←$ extend_with d inplace "gxz" data_vector;
  data_vector ←$ extend_with d inplace "gyy" data_vector;
  data_vector ←$ extend_with d inplace "gyz" data_vector;
  data_vector ←$ extend_with d inplace "gzz" data_vector;
  ret data_vector.

(** ** The forward kernels *)

Definition _calculators : list (string * calculator num) :=
  [("gz", prism_gz); ("gxx", prism_gxx); ("gxy", prism_gxy);
   ("gxz", prism_gxz); ("gyy", prism_gyy); ("gyz", prism_gyz);
   ("gzz", prism_gzz)].

(** One invocation of a kernel with unit density on a cell object. *)
Definition call_kernel (function : calculator num) (c : loc) (x y z : num) : M num :=
  cs ←$ get cells;
  let cell := cs c in
  modify (fun s => with_kernel_calls (S (kernel_calls s)) s) ;;$
  ret (function num_one (cell_x1 cell) (cell_x2 cell) (cell_y1 cell)
         (cell_y2 cell) (cell_z1 cell) (cell_z2 cell) x y z).

(** ** _build_pgrav3d_jacobian *)

(** [assert g is not None, msg], giving the bound value. *)
Definition assert_bound {A} (g : state → option A) (msg : assertion) : M A :=
  fun s => match g s with
           | Some a => (inr a, s)
           | None => (inl (AssertionError msg), s)
           end.

(** A use of a global as an object; [None] has no attributes. *)
Definition read_global {A} (g : state → option A) : M A :=
  fun s => match g s with
           | Some a => (inr a, s)
           | None => (inl AttributeError, s)
           end.

(** [append_row(row)], on the list that [_jacobian] names. *)
Definition append_row (row : list num) : M unit :=
  modify (fun s => with_jacobian (Some (default [] (_jacobian s) ++ [row])) s).

(** [zip(xs, ys, zs)] *)
Definition zip3 (xs ys zs : list num) : list (num * num * num) :=
  zip (zip xs ys) zs.

(** The body of [for field in [...]] in the Jacobian builder. *)
Definition jacobian_block (mesh : mesh) (d : data) (field : string) : M unit :=
  if has_key d field then
    g ←$ lookup_field d field;
    gs ←$ get grids;
    let coordinates := zip3 (grid_x (gs g)) (grid_y (gs g)) (grid_z (gs g)) in
    function ←$ match getitem _calculators field with
                | Some f => ret f
                | None => raise (KeyError field)
                end;
    for_each coordinates (fun '(x, y, z) =>
      row ←$ comprehension (fun cell => call_kernel function cell x y z)
                           (ravel mesh);
      append_row row)
  else ret tt.

Definition _build_pgrav3d_jacobian (estimate : list num) : M (list (list num)) :=
  mesh ←$ assert_bound _mesh NoMeshDefined;
  d ←$ assert_bound _data NoDataDefined;
  j ←$ get _jacobian;
  match j with
  | Some jacobian => ret jacobian
  | None =>
      modify (with_jacobian (Some [])) ;;$
      for_each fields (jacobian_block mesh d) ;;$
      (* [_jacobian = numpy.array(_jacobian)]: the same rows *)
      rows ←$ get (fun s => default [] (_jacobian s));
      modify (with_jacobian (Some rows)) ;;$
      ret rows
  end.

(** ** numpy arrays *)

(** The result of a product or a difference: a 0-d scalar or a 1-d array. *)
Inductive ndarray :=
  | Scalar (v : num)
  | Array (a : list num).

Definition dot_product (u v : list num) : num :=
  foldr num_add num_zero (zip_with num_mul u v).

(** [numpy.dot(jacobian, estimate)]. A Jacobian without rows is the 1-d
    array [numpy.array([])] of shape [(0,)], whose product with an empty
    estimate is a scalar; shapes that do not align raise [ValueError].
    The order of the summation, which numpy leaves to its backend, is fixed
    to that of [dot_product]. *)
Definition numpy_dot (jacobian : list (list num)) (estimate : list num)
  : error + ndarray :=
  match jacobian with
  | [] => match estimate with
          | [] => inr (Scalar num_zero)
          | _ => inl ValueError
          end
  | _ => if decide (Forall (fun row => length row = length estimate) jacobian)
         then inr (Array (map (fun row => dot_product row estimate) jacobian))
         else inl ValueError
  end.

(** [adjusted[:n]] *)
Definition slice_to (n : nat) (a : ndarray) : error + list num :=
  match a with
  | Scalar _ => inl IndexError
  | Array l => inr (take n l)
  end.

(** [adjusted[n:]] *)
Definition slice_from (n : nat) (a : ndarray) : error + ndarray :=
  match a with
  | Scalar _ => inl IndexError
  | Array l => inr (Array (drop n l))
  end.

(** What [calc_adjustment] returns: a vector, or a dictionary of grids. *)
Inductive adjustment :=
  | AdjustedVector (a : ndarray)
  | AdjustedGrid (g : data).

(** [data_vector - adjusted] for a list and the result of [calc_adjustment],
    with numpy's broadcasting of a scalar or of an array of length one. *)
Definition numpy_sub (data_vector : list num) (adjusted : adjustment)
  : error + list num :=
  match adjusted with
  | AdjustedGrid _ => inl TypeError
  | AdjustedVector (Scalar v) => inr (map (fun d => num_sub d v) data_vector)
  | AdjustedVector (Array a) =>
      if decide (length data_vector = length a)
      then inr (zip_with num_sub data_vector a)
      else match data_vector, a with
           | _, [v] => inr (map (fun d => num_sub d v) data_vector)
           | [d], _ => inr (map (fun v => num_sub d v) a)
           | _, _ => inl ValueError
           end
  end.

(** ** calc_adjustment *)

(** [g['value'] = v] *)
Definition store_grid_value (g : loc) (v : list num) : M unit :=
  modify (fun s => with_grids (alter (set_grid_value (Some v)) g (grids s)) s).

(** The body of [for field in [...]] in the grid branch. *)
Definition adjust_field (adjusted_grid : data) (field : string)
    (adjusted : ndarray) : M ndarray :=
  d ←$ read_global _data;
  if has_key d field then
    g ←$ lookup_field d field;
    gs ←$ get grids;
    let ndata := length (grid_x (gs g)) in
    slice ←$ lift (slice_to ndata adjusted);
    target ←$ lookup_field adjusted_grid field;
    store_grid_value target slice ;;$
    lift (slice_from ndata adjusted)
  else ret adjusted.

(** [for field in l: adjusted = body(field, adjusted)] *)
Fixpoint for_fields (l : list string) (body : string → ndarray → M ndarray)
    (adjusted : ndarray) : M ndarray :=
  match l with
  | [] => ret adjusted
  | field :: l' => adjusted ←$ body field adjusted; for_fields l' body adjusted
  end.

(** The grid branch of [calc_adjustment]: split the vector back into the
    per-component grids. [_data.copy()] is a new dictionary holding the same
    grid objects. *)
Definition adjusted_to_grid (adjusted : ndarray) : M data :=
  d ←$ read_global _data;
  let adjusted_grid := d in
  for_fields fields (adjust_field adjusted_grid) adjusted ;;$
  ret adjusted_grid.

Definition calc_adjustment (estimate : list num) (grid : bool) : M adjustment :=
  jacobian ←$ _build_pgrav3d_jacobian estimate;
  adjusted ←$ lift (numpy_dot jacobian estimate);
  if grid then
    adjusted_grid ←$ adjusted_to_grid adjusted;
    ret (AdjustedGrid adjusted_grid)
  else ret (AdjustedVector adjusted).

(** ** residuals *)

Definition residuals (d : data) (estimate : list num) : M (list num) :=
  adjusted ←$ calc_adjustment estimate false;
  key ←$ match d.*1 with
         | key :: _ => ret key
         | [] => raise IndexError
         end;
  g ←$ lookup_field d key;
  gs ←$ get grids;
  data_vector ←$ match grid_value (gs g) with
                 | Some _ => extract_data_vector d false
                 | None => assert_bound _data_vector (MissingValueKey key)
                 end;
  lift (numpy_sub data_vector adjusted).

(** ** _build_pgrav3d_first_deriv *)

Definition _build_pgrav3d_first_deriv : M FirstDeriv.matrix :=
  mesh ←$ assert_bound _mesh NoMeshFirstDeriv;
  let '(nz, ny, nx) := shape mesh in
  lift (FirstDeriv.first_deriv_of_shape nz ny nx).

(** ** solve *)

(** The regularization parameters that [solve] registers in the solver
    module. *)
Record regularization := Regularization {
  damping : num;
  smoothness : num;
  curvature : num;
  sharpness : num;
  beta : num;
  compactness : num;
  epsilon : num
}.

(** The functions that [solve] registers in the solver module. *)
Record hooks := Hooks {
  _build_jacobian : list num → M (list (list num));
  _build_first_deriv_matrix : M FirstDeriv.matrix;
  _calc_adjustment : list num → bool → M adjustment
}.

(** [solvers.lm(data, cov, initial, lm_start, lm_step, max_steps, max_it)],
    with what the solver module holds when it is called. *)
Definition solver : Type :=
  hooks → regularization →
  list num → option (list (list num)) → list num → num → num → nat → nat →
  M (list num * list num).

(** What [solve] registers: the three functions of this module. *)
Definition registered : hooks :=
  Hooks _build_pgrav3d_jacobian _build_pgrav3d_first_deriv calc_adjustment.

Definition solve (lm : solver) (d : data) (mesh : mesh)
    (initial : option (list num)) (reg : regularization)
    (max_it : nat) (lm_start lm_step : num) (max_steps : nat)
  : M (list num * list num) :=
  for_each d.*1 (fun key =>
    assert (bool_decide (key ∈ fields)) (InvalidGravityComponent key)) ;;$
  modify (with_mesh (Some mesh)) ;;$
  modify (with_data (Some d)) ;;$
  data_vector ←$ extract_data_vector d false;
  modify (with_data_vector (Some data_vector)) ;;$
  let initial :=
    match initial with
    | None => replicate (size mesh) (num_mul num_1e_7 num_one)
    | Some initial => initial
    end in
  let solvers := registered in
  data_vector ←$ read_global _data_vector;
  lm solvers reg data_vector None initial lm_start lm_step max_steps max_it.

(** ** The solver *)

(** Modelled from the spec: the terminal states of the solver of section
    4.4, [solvers.lm], which is not among the sources. *)
Inductive solver_state :=
  | CONVERGED
  | MAX_ITERATIONS
  | STEP_EXHAUSTED.

Section Solver.

(** The numerics the specification leaves to the shared solver code: the
    regularization penalty of an estimate, the increment that solves the
    normal equations for a Jacobian, a residual, a Marquardt parameter and
    an estimate, and the convergence tolerance. *)
Variable penalty : regularization → list num → num.
Variable normal_equations :
  regularization → list (list num) → list num → num → list num → list num.
Variable tolerance : num.

Variable solvers : hooks.
Variable reg : regularization.
Variable data_vector : list num.
Variable lm_step : num.
Variable max_steps : nat.

(** Modelled from the spec: steps 1 and 2 of the per-iteration algorithm of
    [solvers.lm], which is not among the sources: the predicted data of an
    estimate through the registered adjustment function, and the residual. *)
Definition lm_residual (estimate : list num) : M (list num) :=
  adjusted ←$ _calc_adjustment solvers estimate false;
  lift (numpy_sub data_vector adjusted).

(** Modelled from the spec: steps 1 to 4 of the per-iteration algorithm of
    [solvers.lm]: the goal function is the data misfit plus the
    regularization penalty. *)
Definition goal_function (estimate : list num) : M num :=
  residual ←$ lm_residual estimate;
  let misfit := dot_product residual residual in
  ret (num_add misfit (penalty reg estimate)).

(** Modelled from the spec: step 5 of the per-iteration algorithm of
    [solvers.lm]: the trial estimate of a damped step. *)
Definition trial_estimate (lm_param : num) (estimate : list num)
  : M (list num) :=
  jacobian ←$ _build_jacobian solvers estimate;
  residual ←$ lm_residual estimate;
  let increment := normal_equations reg jacobian residual lm_param estimate in
  ret (zip_with num_add estimate increment).

(** Modelled from the spec: steps 5 to 7 of the per-iteration algorithm of
    [solvers.lm]: try a step at most [max_steps] times; a trial whose goal
    function is lower is accepted and the Marquardt parameter divided by
    [lm_step], otherwise the parameter is multiplied by [lm_step]. [None]
    when the retries are exhausted. *)
Fixpoint lm_try (steps : nat) (lm_param : num) (estimate : list num)
    (goal : num) : M (option (list num * num)) :=
  match steps with
  | 0 => ret None
  | S steps' =>
      trial ←$ trial_estimate lm_param estimate;
      trial_goal ←$ goal_function trial;
      if num_ltb trial_goal goal
      then ret (Some (trial, num_div lm_param lm_step))
      else lm_try steps' (num_mul lm_param lm_step) estimate goal
  end.

(** Modelled from the spec: the magnitude used in the relative improvement
    of step 8. *)
Definition num_abs (a : num) : num :=
  if num_ltb a num_zero then num_sub num_zero a else a.

(** Modelled from the spec: step 8, the relative improvement of the goal
    function between consecutive accepted iterations is below the
    tolerance. *)
Definition converged (goal_history : list num) (goal : num) : bool :=
  match last goal_history with
  | None => false
  | Some previous =>
      num_ltb (num_div (num_abs (num_sub previous goal)) (num_abs previous))
              tolerance
  end.

(** Modelled from the spec: the outer iteration of [solvers.lm]
    (section 4.4): record the goal function of the current estimate, stop
    when converged, otherwise try a step and go on from the accepted trial,
    for at most [max_it] iterations. *)
Fixpoint lm_iterate (max_it : nat) (lm_param : num) (estimate : list num)
    (goal_history : list num) : M (list num * list num * solver_state) :=
  match max_it with
  | 0 => ret (estimate, goal_history, MAX_ITERATIONS)
  | S max_it' =>
      goal ←$ goal_function estimate;
      let goal_history' := goal_history ++ [goal] in
      if converged goal_history goal
      then ret (estimate, goal_history', CONVERGED)
      else
        step ←$ lm_try max_steps lm_param estimate goal;
        match step with
        | None => ret (estimate, goal_history', STEP_EXHAUSTED)
        | Some (trial, lm_param') =>
            lm_iterate max_it' lm_param' trial goal_history'
        end
  end.

End Solver.

(** Modelled from the spec: [solvers.lm], which is not among the sources,
    after section 4.4: it fails with [MissingMeshError] or
    [MissingDataError] when no mesh or observation set is bound, with
    [DimensionMismatchError] when the length of the initial estimate
    disagrees with the mesh cell count, and otherwise runs the iteration
    and returns the final estimate and the goal history. The data
    covariance is the identity. *)
Definition lm_spec
    (penalty : regularization → list num → num)
    (normal_equations :
       regularization → list (list num) → list num → num → list num → list num)
    (tolerance : num) : solver :=
  fun solvers reg data_vector cov initial lm_start lm_step max_steps max_it =>
    mesh ←$ assert_bound _mesh NoMeshDefined;
    _ ←$ assert_bound _data NoDataDefined;
    if decide (length initial = size mesh) then
      r ←$ lm_iterate penalty normal_equations tolerance solvers reg
             data_vector lm_step max_steps max_it lm_start initial [];
      ret (r.1.1, r.1.2)
    else raise DimensionMismatchError.

(** ** Functional descriptions used in the statements *)

(** The Jacobian row of an observation point: the kernel with unit density
    on every cell in flattened order. *)
Definition kernel_row (function : calculator num) (cs : loc → cell) (mesh : mesh)
    (p : num * num * num) : list num :=
  map (fun c =>
         function num_one (cell_x1 (cs c)) (cell_x2 (cs c)) (cell_y1 (cs c))
           (cell_y2 (cs c)) (cell_z1 (cs c)) (cell_z2 (cs c)) p.1.1 p.1.2 p.2)
      (ravel mesh).

(** The cell store after [fill_mesh] has gone through the pairs [l]. *)
Definition filled_cells (l : list (num * loc)) (cs : loc → cell) : loc → cell :=
  foldl (fun cs '(value, c) => alter (set_cell_value value) c cs) cs l.

(** The observation points of a component, in array order. *)
Definition coordinates (gs : loc → grid) (d : data) (field : string)
  : list (num * num * num) :=
  match getitem d field with
  | Some g => zip3 (grid_x (gs g)) (grid_y (gs g)) (grid_z (gs g))
  | None => []
  end.

(** The row block of a component. *)
Definition field_rows (cs : loc → cell) (gs : loc → grid) (mesh : mesh)
    (d : data) (field : string) : list (list num) :=
  match getitem _calculators field with
  | Some function => map (kernel_row function cs mesh) (coordinates gs d field)
  | None => []
  end.

Definition jacobian_rows (cs : loc → cell) (gs : loc → grid) (mesh : mesh)
    (d : data) : list (list num) :=
  concat (map (field_rows cs gs mesh d) fields).

(** The observed values of a component; none when the component is absent. *)
Definition field_values (gs : loc → grid) (d : data) (field : string)
  : list num :=
  match getitem d field with
  | Some g => default [] (grid_value (gs g))
  | None => []
  end.

(** The number of observations of a component, as the grid branch of
    [calc_adjustment] counts them. *)
Definition field_count (gs : loc → grid) (d : data) (field : string) : nat :=
  match getitem d field with
  | Some g => length (grid_x (gs g))
  | None => 0
  end.

(** The position in the data vector at which the block of a component
    starts, [pre] being the components before it in canonical order. *)
Definition offset (gs : loc → grid) (d : data) (pre : list string) : nat :=
  sum_list_with (field_count gs d) pre.

(** Every component of the data carries observed values. *)
Definition carries_values (gs : loc → grid) (d : data) : Prop :=
  ∀ field g, getitem d field = Some g → is_Some (grid_value (gs g)).

(** A well-formed observation set: every component holds parallel arrays
    of coordinates and observed values. *)
Definition well_formed (gs : loc → grid) (d : data) : Prop :=
  ∀ field g, getitem d field = Some g →
    ∃ v, grid_value (gs g) = Some v
         ∧ length (grid_x (gs g)) = length v
         ∧ length (grid_y (gs g)) = length v
         ∧ length (grid_z (gs g)) = length v.

(** The store after the grid branch has gone through the components [l]
    with the vector [a]. *)
Fixpoint adjusted_grids (d : data) (l : list string) (a : list num)
    (gs : loc → grid) : loc → grid :=
  match l with
  | [] => gs
  | field :: l' =>
      match getitem d field with
      | Some g =>
          let ndata := length (grid_x (gs g)) in
          adjusted_grids d l' (drop ndata a)
            (alter (set_grid_value (Some (take ndata a))) g gs)
      | None => adjusted_grids d l' a gs
      end
  end.

(** [b <= a], as "lower than or equal to". *)
Definition num_le (b a : num) : Prop := num_ltb b a = true ∨ b = a.

(** A goal history in which no entry exceeds the one before it. *)
Definition non_increasing (goals : list num) : Prop :=
  ∀ i a b, goals !! i = Some a → goals !! (S i) = Some b → num_le b a.

(** The seven blocks of [extract_data_vector] as a loop over the component
    names. *)
Fixpoint extend_all (d : data) (inplace : bool) (l : list string)
    (data_vector : list num) : M (list num) :=
  match l with
  | [] => ret data_vector
  | field :: l' =>
      bind (extend_with d inplace field data_vector) (extend_all d inplace l')
  end.

(** The store after the in-place extraction has gone through the
    components [l]. *)
Fixpoint deleted_grids (d : data) (l : list string) (gs : loc → grid)
  : loc → grid :=
  match l with
  | [] => gs
  | field :: l' =>
      match getitem d field with
      | Some g => deleted_grids d l' (alter (set_grid_value None) g gs)
      | None => deleted_grids d l' gs
      end
  end.

(** Some present component of the canonical list has no observed values. *)
Definition misses_values (gs : loc → grid) (d : data) : Prop :=
  ∃ field g, field ∈ fields ∧ getitem d field = Some g
             ∧ grid_value (gs g) = None.

(** Every present component of the canonical list has observed values. *)
Definition components_carry_values (gs : loc → grid) (d : data) : Prop :=
  ∀ field g, field ∈ fields → getitem d field = Some g →
    is_Some (grid_value (gs g)).

(** The components of the canonical list name distinct grid objects. *)
Definition distinct_grids (d : data) : Prop :=
  ∀ f1 f2 g, f1 ∈ fields → f2 ∈ fields →
    getitem d f1 = Some g → getitem d f2 = Some g → f1 = f2.

(** The geometry of a cell: its six bounds. *)
Definition cell_bounds (c : cell) : num * num * num * num * num * num :=
  (cell_x1 c, cell_x2 c, cell_y1 c, cell_y2 c, cell_z1 c, cell_z2 c).

End Pgrav3d.

Arguments cell num : clear implicits.
Arguments grid num : clear implicits.
Arguments state num : clear implicits.
Arguments M num A : clear implicits.
Arguments ndarray num : clear implicits.
Arguments adjustment num : clear implicits.
Arguments regularization num : clear implicits.
Arguments hooks num : clear implicits.
Arguments solver num : clear implicits.

(** ** A small session over the integers *)

Module Example.

(** Integers stand in for the floating point numbers; the small constant
    has no integer counterpart and is taken as 0. *)
#[global] Instance Z_num : NumOps Z := {
  num_zero := 0%Z;
  num_one := 1%Z;
  num_1e_7 := 0%Z;
  num_add := Z.add;
  num_sub := Z.sub;
  num_mul := Z.mul;
  num_div := Z.div;
  num_ltb := Z.ltb
}.

(** Stand-ins for the kernels: integer functions of the density, the cell
    bounds and the observation point. *)
#[global] Instance Z_prism : Prism Z := {
  prism_gz := fun dens x1 x2 y1 y2 z1 z2 x y z => (dens * (x1 + y1 + x))%Z;
  prism_gxx := fun dens x1 x2 y1 y2 z1 z2 x y z => (dens * (x2 - x))%Z;
  prism_gxy := fun dens x1 x2 y1 y2 z1 z2 x y z => (dens * (x1 + y))%Z;
  prism_gxz := fun dens x1 x2 y1 y2 z1 z2 x y z => (dens * (x1 + z))%Z;
  prism_gyy := fun dens x1 x2 y1 y2 z1 z2 x y z => (dens * (y2 - y))%Z;
  prism_gyz := fun dens x1 x2 y1 y2 z1 z2 x y z => (dens * (y1 + z))%Z;
  prism_gzz := fun dens x1 x2 y1 y2 z1 z2 x y z => (dens * (x1 + 2 * y1 + z))%Z
}.

(** A mesh of 2 x 2 x 1 cells: cell [c] is the unit square at column
    [c mod 2] and row [c / 2]. *)
Definition mesh4 : mesh := Mesh (1, 2, 2) [0; 1; 2; 3].

Definition cells4 : nat → cell Z := fun c =>
  Cell (Z.of_nat (c mod 2)) (Z.of_nat (c mod 2) + 1)%Z
       (Z.of_nat (c / 2)) (Z.of_nat (c / 2) + 1)%Z 0%Z 1%Z None.

(** Two grid objects: object 0 holds two gz observations, object 1 one gzz
    observation; the other references hold empty grids. *)
Definition grids2 : nat → grid Z := fun g =>
  match g with
  | 0 => Grid [1; 2]%Z [0; 0]%Z [0; 0]%Z (Some [5; 7]%Z)
  | 1 => Grid [3]%Z [0]%Z [1]%Z (Some [4]%Z)
  | _ => Grid [] [] [] None
  end.

(** The same objects with the observed values taken away. *)
Definition grids2_no_values : nat → grid Z := fun g =>
  match g with
  | 0 => Grid [1; 2]%Z [0; 0]%Z [0; 0]%Z None
  | 1 => Grid [3]%Z [0]%Z [1]%Z None
  | _ => Grid [] [] [] None
  end.

(** The observation set, with [keys()] giving gzz before gz. *)
Definition data2 : list (string * nat) := [("gzz", 1); ("gz", 0)].

(** An observation set with an unknown key. *)
Definition data_foo : list (string * nat) := [("gz", 0); ("foo", 1)].

(** A session after [clear()]. *)
Definition cleared : state Z := State None None None None cells4 grids2 0.

(** A session with the mesh and the data bound and an empty cache. *)
Definition bound : state Z :=
  State None (Some mesh4) (Some data2) None cells4 grids2 0.

(** The same session when the observed values have been taken away: mesh
    and data bound, no data vector. *)
Definition bound_no_values : state Z :=
  State None (Some mesh4) (Some data2) None cells4 grids2_no_values 0.

(** The Jacobian of the session: the two gz rows, then the gzz row. *)
Definition jacobian2 : list (list Z) :=
  [[1; 2; 2; 3]; [2; 3; 3; 4]; [1; 2; 3; 4]]%Z.

(** The bound session once the Jacobian is cached, after 12 kernel
    invocations. *)
Definition bound_cached : state Z :=
  State (Some jacobian2) (Some mesh4) (Some data2) None cells4 grids2 12.

Definition bound_no_values_cached : state Z :=
  State (Some jacobian2) (Some mesh4) (Some data2) None cells4
        grids2_no_values 12.

(** A cleared session whose grids carry no observed values. *)
Definition cleared_no_values : state Z :=
  State None None None None cells4 grids2_no_values 0.

(** The session that [solve] leaves behind. *)
Definition solved : state Z :=
  State (Some jacobian2) (Some mesh4) (Some data2) (Some [5; 7; 4]%Z) cells4
        grids2 12.

Definition no_regularization : regularization Z := Regularization 0%Z 0%Z 0%Z 0%Z 0%Z 0%Z 0%Z.

(** Solver numerics for the example: no penalty, and an increment that
    adds the first residual to the first parameter. *)
Definition no_penalty : regularization Z → list Z → Z := fun _ _ => 0%Z.

Definition first_residual_step
  : regularization Z → list (list Z) → list Z → Z → list Z → list Z :=
  fun _ _ residual _ estimate =>
    match residual with
    | r :: _ => r :: replicate (length estimate - 1) 0%Z
    | [] => replicate (length estimate) 0%Z
    end.

(** A solver that returns the initial estimate at once. *)
Definition immediate : solver Z :=
  fun _ _ _ _ initial _ _ _ _ => ret (initial, []).

(** The bound session after [extract_data_vector(data, inplace=True)]: the
    grids have lost their ['value'] arrays. *)
Definition emptied : state Z := (extract_data_vector data2 true bound).2.

(** The grid objects when only the gzz grid holds observed values. *)
Definition grids_mixed : nat → grid Z := fun g =>
  match g with
  | 0 => Grid [1; 2]%Z [0; 0]%Z [0; 0]%Z None
  | 1 => Grid [3]%Z [0]%Z [1]%Z (Some [4]%Z)
  | _ => Grid [] [] [] None
  end.

Definition cleared_mixed : state Z :=
  State None None None None cells4 grids_mixed 0.

Definition bound_mixed : state Z :=
  State None (Some mesh4) (Some data2) None cells4 grids_mixed 0.

Definition bound_mixed_cached : state Z :=
  State (Some jacobian2) (Some mesh4) (Some data2) None cells4 grids_mixed 12.

(** An observation set with the gz grid only. *)
Definition data_gz : list (string * nat) := [("gz", 0)].

(** The session of [solved] rebound to the gz grid alone without a call of
    [clear]: the Jacobian of the earlier data is still cached. *)
Definition rebound : state Z :=
  State (Some jacobian2) (Some mesh4) (Some data_gz) (Some [5; 7]%Z) cells4
        grids2 12.

(** A mesh with an empty x axis, and a session bound to it. *)
Definition mesh_empty_axis : mesh := Mesh (1, 2, 0) [].

Definition bound_empty_axis : state Z :=
  State None (Some mesh_empty_axis) (Some data2) None cells4 grids2 0.

End Example.

(** * Properties *)

Local Close Scope string_scope.

(** ** The first-derivative operator *)

Section FirstDerivFacts.
Import FirstDeriv.

Lemma lookup_app_plus {A} (l1 l2 : list A) (i n : nat) :
  length l1 = n → (l1 ++ l2) !! (n + i) = l2 !! i.
Proof.
  intros <-. rewrite lookup_app_r by lia. f_equal. lia.
Qed.

Lemma setitem_next (done : matrix) row rest j v :
  j < length row →
  setitem (done ++ row :: rest) (length done) j v
  = inr (done ++ <[j := v]> row :: rest).
Proof.
  intros Hj. unfold setitem.
  rewrite lookup_app_r by lia. rewrite Nat.sub_diag. simpl.
  rewrite decide_True by done.
  rewrite insert_app_r_alt by lia. by rewrite Nat.sub_diag.
Qed.

Lemma st_of_eq C done done' r r' p p' :
  done = done' → r = r' → p = p' → st_of C done r p = st_of C done' r' p'.
Proof. by intros -> -> ->. Qed.

Lemma deriv_pair_emit C off done r p :
  p + off < C →
  deriv_pair off (st_of C done (1 + r) p)
  = inr (st_of C (done ++ [pair_row C p (p + off)]) r (p + 1)).
Proof.
  intros Hp. unfold st_of, deriv_pair. simpl replicate.
  rewrite setitem_next by (rewrite length_replicate; lia). simpl.
  rewrite setitem_next by (rewrite length_insert, length_replicate; lia).
  simpl. rewrite <- app_assoc, length_app. simpl. done.
Qed.

Lemma xrange_loop_emit C (B : loop_state → error + loop_state)
    (F : nat → list (list Z)) (m d : nat) (ok : nat → Prop) :
  (∀ done r p, ok p →
     B (st_of C done (m + r) p) = inr (st_of C (done ++ F p) r (p + d))) →
  ∀ n done r p, (∀ t, t < n → ok (p + t * d)) →
    xrange_loop n B (st_of C done (n * m + r) p)
    = inr (st_of C (done ++ emit n F p d) r (p + n * d)).
Proof.
  intros HB n. induction n as [|n IH]; intros done r p Hok.
  - simpl. f_equal. apply st_of_eq; [by rewrite app_nil_r | done | lia].
  - replace (S n * m + r) with (m + (n * m + r)) by lia.
    cbn [xrange_loop].
    rewrite HB by (specialize (Hok 0); rewrite Nat.add_0_r in Hok; apply Hok; lia).
    cbn [ebind]. rewrite IH.
    + f_equal. apply st_of_eq; [by rewrite <- app_assoc | done | lia].
    + intros t Ht. replace (p + d + t * d) with (p + S t * d) by lia.
      apply Hok. lia.
Qed.

Lemma length_emit F m : (∀ p, length (F p) = m) →
  ∀ n p d, length (emit n F p d) = n * m.
Proof.
  intros HF n. induction n as [|n IH]; intros p d; simpl; [done|].
  rewrite length_app, HF, IH. lia.
Qed.

Lemma lookup_emit F m : (∀ p, length (F p) = m) →
  ∀ n p d t u, t < n → u < m →
    emit n F p d !! (t * m + u) = F (p + t * d) !! u.
Proof.
  intros HF n. induction n as [|n IH]; intros p d t u Ht Hu; [lia|].
  simpl. destruct t as [|t].
  - simpl. rewrite lookup_app_l by (rewrite HF; lia).
    by rewrite Nat.add_0_r.
  - rewrite lookup_app_r by (rewrite HF; lia). rewrite HF.
    replace (S t * m + u - m) with (t * m + u) by lia.
    rewrite IH by lia. replace (p + d + t * d) with (p + S t * d) by lia. done.
Qed.

Lemma Forall_emit (P : list Z → Prop) F :
  ∀ n p d, (∀ t, t < n → Forall P (F (p + t * d))) → Forall P (emit n F p d).
Proof.
  induction n as [|n IH]; intros p d HF; simpl; [constructor|].
  apply Forall_app. split.
  - specialize (HF 0). rewrite Nat.add_0_r in HF. apply HF. lia.
  - apply IH. intros t Ht. replace (p + d + t * d) with (p + S t * d) by lia.
    apply HF. lia.
Qed.

Lemma length_pair_row C p q : length (pair_row C p q) = C.
Proof. unfold pair_row. by rewrite !length_insert, length_replicate. Qed.

Lemma lookup_pair_row C p q c :
  p ≠ q → p < C → q < C → c < C →
  pair_row C p q !! c
  = Some (if decide (c = p) then 1%Z else if decide (c = q) then (-1)%Z else 0%Z).
Proof.
  intros Hpq Hp Hq Hc. unfold pair_row.
  destruct (decide (c = q)) as [->|Hcq].
  - rewrite list_lookup_insert_eq by (rewrite length_insert, length_replicate; lia).
    by rewrite decide_False by done.
  - rewrite list_lookup_insert_ne by done.
    destruct (decide (c = p)) as [->|Hcp].
    + by rewrite list_lookup_insert_eq by (rewrite length_replicate; lia).
    + rewrite list_lookup_insert_ne by done.
      by rewrite lookup_replicate_2.
Qed.

(** The bodies of the three loop nests. *)
Lemma x_line_emit C nx done r p :
  0 < nx → p + nx ≤ C →
  (st ←! xrange_loop (nx - 1) (deriv_pair 1) (st_of C done ((nx - 1) + r) p);
   skip_params 1 st)
  = inr (st_of C (done ++ emit (nx - 1) (fun p => [pair_row C p (p + 1)]) p 1)
               r (p + nx)).
Proof.
  intros Hnx Hp.
  replace (nx - 1 + r) with ((nx - 1) * 1 + r) by lia.
  rewrite (xrange_loop_emit C _ (fun p => [pair_row C p (p + 1)]) 1 1
             (fun p => p + 1 < C)).
  - cbn [ebind]. unfold st_of, skip_params. do 2 f_equal. lia.
  - intros done' r' p' Hp'. by apply deriv_pair_emit.
  - intros t Ht. lia.
Qed.

Lemma x_derivatives_emit C nx ny nz done r :
  0 < nx → C = nx * ny * nz →
  x_derivatives nx ny nz (st_of C done ((nx - 1) * ny * nz + r) 0)
  = inr (st_of C (done ++ x_rows C nx ny nz) r (nz * (ny * nx))).
Proof.
  intros Hnx HC. unfold x_derivatives, x_rows.
  replace ((nx - 1) * ny * nz + r) with (nz * (ny * (nx - 1)) + r) by lia.
  rewrite (xrange_loop_emit C _
    (fun p => emit ny (fun p =>
       emit (nx - 1) (fun p => [pair_row C p (p + 1)]) p 1) p nx)
    (ny * (nx - 1)) (ny * nx) (fun p => p + ny * nx ≤ C)).
  - done.
  - intros done0 r' p Hp.
    apply (xrange_loop_emit C _
      (fun p => emit (nx - 1) (fun p => [pair_row C p (p + 1)]) p 1)
      (nx - 1) nx (fun p => p + nx ≤ C)).
    + intros done' r'' p' Hp'. by apply x_line_emit.
    + intros t Ht. nia.
  - intros t Ht. nia.
Qed.

Lemma y_plane_emit C nx ny done r p :
  0 < ny → p + ny * nx ≤ C →
  (st ←! xrange_loop (ny - 1) (fun st => xrange_loop nx (deriv_pair nx) st)
           (st_of C done ((ny - 1) * nx + r) p);
   skip_params nx st)
  = inr (st_of C (done ++ emit (ny - 1) (fun p =>
                    emit nx (fun p => [pair_row C p (p + nx)]) p 1) p nx)
               r (p + ny * nx)).
Proof.
  intros Hny Hp.
  rewrite (xrange_loop_emit C _
    (fun p => emit nx (fun p => [pair_row C p (p + nx)]) p 1)
    nx nx (fun p => p + nx + nx ≤ C)).
  - cbn [ebind]. unfold st_of, skip_params. do 2 f_equal. nia.
  - intros done' r' p' Hp'.
    replace (nx + r') with (nx * 1 + r') by lia.
    rewrite (xrange_loop_emit C _ (fun p => [pair_row C p (p + nx)]) 1 1
               (fun p => p + nx < C)).
    + f_equal. apply st_of_eq; [done | done | lia].
    + intros done'' r'' p'' Hp''. by apply deriv_pair_emit.
    + intros t Ht. lia.
  - intros t Ht. nia.
Qed.

Lemma y_derivatives_emit C nx ny nz done r :
  0 < ny → C = nx * ny * nz →
  y_derivatives nx ny nz (st_of C done (nx * (ny - 1) * nz + r) 0)
  = inr (st_of C (done ++ y_rows C nx ny nz) r (nz * (ny * nx))).
Proof.
  intros Hny HC. unfold y_derivatives, y_rows.
  replace (nx * (ny - 1) * nz + r) with (nz * ((ny - 1) * nx) + r) by lia.
  rewrite (xrange_loop_emit C _
    (fun p => emit (ny - 1) (fun p =>
       emit nx (fun p => [pair_row C p (p + nx)]) p 1) p nx)
    ((ny - 1) * nx) (ny * nx) (fun p => p + ny * nx ≤ C)).
  - done.
  - intros done0 r' p Hp. by apply y_plane_emit.
  - intros t Ht. nia.
Qed.

Lemma z_derivatives_emit C nx ny nz done r :
  0 < nz → C = nx * ny * nz →
  z_derivatives nx ny nz (st_of C done (nx * ny * (nz - 1) + r) 0)
  = inr (st_of C (done ++ z_rows C nx ny nz) r ((nz - 1) * (ny * nx))).
Proof.
  intros Hnz HC. unfold z_derivatives, z_rows.
  replace (nx * ny * (nz - 1) + r) with ((nz - 1) * (ny * nx) + r) by lia.
  rewrite (xrange_loop_emit C _
    (fun p => emit ny (fun p =>
       emit nx (fun p => [pair_row C p (p + nx * ny)]) p 1) p nx)
    (ny * nx) (ny * nx) (fun p => p + ny * nx + nx * ny ≤ C)).
  - done.
  - intros done0 r' p Hp.
    apply (xrange_loop_emit C _
      (fun p => emit nx (fun p => [pair_row C p (p + nx * ny)]) p 1)
      nx nx (fun p => p + nx + nx * ny ≤ C)).
    + intros done' r'' p' Hp'.
      replace (nx + r'') with (nx * 1 + r'') by lia.
      rewrite (xrange_loop_emit C _ (fun p => [pair_row C p (p + nx * ny)]) 1 1
                 (fun p => p + nx * ny < C)).
      * f_equal. apply st_of_eq; [done | done | lia].
      * intros done'' r3 p'' Hp''. by apply deriv_pair_emit.
      * intros t Ht. lia.
    + intros t Ht. nia.
  - intros t Ht. nia.
Qed.


(** The loops write exactly the three blocks of rows, in this order. *)
Lemma first_deriv_of_shape_rows nx ny nz :
  0 < nx → 0 < ny → 0 < nz →
  first_deriv_of_shape nz ny nx
  = inr (x_rows (nx * ny * nz) nx ny nz ++ y_rows (nx * ny * nz) nx ny nz
         ++ z_rows (nx * ny * nz) nx ny nz).
Proof.
  intros Hnx Hny Hnz. unfold first_deriv_of_shape, numpy_zeros.
  set (C := nx * ny * nz).
  set (X := (nx - 1) * ny * nz).
  set (Y := nx * (ny - 1) * nz).
  set (Zr := nx * ny * (nz - 1)).
  replace (Z.of_nat nx - 1)%Z with (Z.of_nat (nx - 1)) by lia.
  replace (Z.of_nat ny - 1)%Z with (Z.of_nat (ny - 1)) by lia.
  replace (Z.of_nat nz - 1)%Z with (Z.of_nat (nz - 1)) by lia.
  rewrite <- !Nat2Z.inj_mul, <- !Nat2Z.inj_add.
  rewrite decide_False by lia.
  cbn [ebind]. rewrite !Nat2Z.id.
  replace ((nx - 1) * ny * nz + (ny - 1) * nx * nz + (nz - 1) * nx * ny)
    with (X + (Y + (Zr + 0))) by (unfold X, Y, Zr; lia).
  change (replicate (X + (Y + (Zr + 0))) (replicate C 0%Z), 0, 0)
    with (st_of C [] (X + (Y + (Zr + 0))) 0).
  unfold X. rewrite x_derivatives_emit by done. cbn [ebind].
  change (reset_params (st_of C ([] ++ x_rows C nx ny nz) (Y + (Zr + 0))
                              (nz * (ny * nx))))
    with (st_of C ([] ++ x_rows C nx ny nz) (Y + (Zr + 0)) 0).
  unfold Y. rewrite y_derivatives_emit by done. cbn [ebind].
  change (reset_params (st_of C (([] ++ x_rows C nx ny nz) ++ y_rows C nx ny nz)
                              (Zr + 0) (nz * (ny * nx))))
    with (st_of C (([] ++ x_rows C nx ny nz) ++ y_rows C nx ny nz) (Zr + 0) 0).
  unfold Zr. rewrite z_derivatives_emit by done. cbn [ebind].
  unfold st_of. cbn [fst replicate].
  by rewrite app_nil_r, app_nil_l, <- app_assoc.
Qed.

Lemma index_bound nx ny nz i j k :
  i < nx → j < ny → k < nz → i + j * nx + k * (ny * nx) < nx * ny * nz.
Proof.
  intros Hi Hj Hk.
  assert (j * nx + nx ≤ ny * nx) by nia.
  assert (k * (ny * nx) + ny * nx ≤ nz * (ny * nx)) by nia.
  lia.
Qed.

Lemma lookup_x_rows C nx ny nz i j k :
  i + 1 < nx → j < ny → k < nz →
  x_rows C nx ny nz !! (i + j * (nx - 1) + k * (nx - 1) * ny)
  = Some (pair_row C (param_index nx ny i j k) (param_index nx ny (i + 1) j k)).
Proof.
  intros Hi Hj Hk. unfold x_rows, param_index.
  replace (i + j * (nx - 1) + k * (nx - 1) * ny)
    with (k * (ny * (nx - 1)) + (j * (nx - 1) + (i * 1 + 0))) by lia.
  rewrite (lookup_emit _ (ny * (nx - 1))); [| | done | nia].
  2: { intros p. apply length_emit. intros p'.
       rewrite (length_emit _ 1) by done. lia. }
  rewrite (lookup_emit _ (nx - 1)); [| | done | lia].
  2: { intros p. rewrite (length_emit _ 1) by done. lia. }
  rewrite (lookup_emit _ 1) by first [done | lia].
  simpl. do 2 f_equal; lia.
Qed.

Lemma lookup_y_rows C nx ny nz i j k :
  i < nx → j + 1 < ny → k < nz →
  y_rows C nx ny nz !! (i + j * nx + k * nx * (ny - 1))
  = Some (pair_row C (param_index nx ny i j k) (param_index nx ny i (j + 1) k)).
Proof.
  intros Hi Hj Hk. unfold y_rows, param_index.
  replace (i + j * nx + k * nx * (ny - 1))
    with (k * ((ny - 1) * nx) + (j * nx + (i * 1 + 0))) by lia.
  rewrite (lookup_emit _ ((ny - 1) * nx)); [| | done | nia].
  2: { intros p. apply length_emit. intros p'.
       rewrite (length_emit _ 1) by done. lia. }
  rewrite (lookup_emit _ nx); [| | lia | lia].
  2: { intros p. rewrite (length_emit _ 1) by done. lia. }
  rewrite (lookup_emit _ 1) by first [done | lia].
  simpl. do 2 f_equal; lia.
Qed.

Lemma lookup_z_rows C nx ny nz i j k :
  i < nx → j < ny → k + 1 < nz →
  z_rows C nx ny nz !! (i + j * nx + k * nx * ny)
  = Some (pair_row C (param_index nx ny i j k) (param_index nx ny i j (k + 1))).
Proof.
  intros Hi Hj Hk. unfold z_rows, param_index.
  replace (i + j * nx + k * nx * ny)
    with (k * (ny * nx) + (j * nx + (i * 1 + 0))) by lia.
  rewrite (lookup_emit _ (ny * nx)); [| | lia | nia].
  2: { intros p. apply length_emit. intros p'.
       rewrite (length_emit _ 1) by done. lia. }
  rewrite (lookup_emit _ nx); [| | done | lia].
  2: { intros p. rewrite (length_emit _ 1) by done. lia. }
  rewrite (lookup_emit _ 1) by first [done | lia].
  simpl. do 2 f_equal; lia.
Qed.

Lemma length_x_rows C nx ny nz :
  length (x_rows C nx ny nz) = (nx - 1) * ny * nz.
Proof.
  unfold x_rows. rewrite (length_emit _ (ny * (nx - 1))); [lia|].
  intros p. apply length_emit. intros p'.
  rewrite (length_emit _ 1) by done. lia.
Qed.

Lemma length_y_rows C nx ny nz :
  length (y_rows C nx ny nz) = nx * (ny - 1) * nz.
Proof.
  unfold y_rows. rewrite (length_emit _ ((ny - 1) * nx)); [lia|].
  intros p. apply length_emit. intros p'.
  rewrite (length_emit _ 1) by done. lia.
Qed.

Lemma length_z_rows C nx ny nz :
  length (z_rows C nx ny nz) = nx * ny * (nz - 1).
Proof.
  unfold z_rows. rewrite (length_emit _ (ny * nx)); [lia|].
  intros p. apply length_emit. intros p'.
  rewrite (length_emit _ 1) by done. lia.
Qed.

Lemma unit_pair_row_intro C nx ny p off :
  0 < off → p + off < C → (off = 1 ∨ off = nx ∨ off = nx * ny) →
  unit_pair_row C nx ny (pair_row C p (p + off)).
Proof.
  intros Hoff Hp Hcase. exists p, (p + off).
  split; [lia|]. split; [done|]. split; [lia|].
  intros c Hc. apply lookup_pair_row; lia.
Qed.

Lemma Forall_x_rows nx ny nz :
  Forall (unit_pair_row (nx * ny * nz) nx ny) (x_rows (nx * ny * nz) nx ny nz).
Proof.
  unfold x_rows. apply Forall_emit. intros k Hk.
  apply Forall_emit. intros j Hj. apply Forall_emit. intros i Hi.
  apply Forall_singleton. apply unit_pair_row_intro; [lia | | by left].
  pose proof (index_bound nx ny nz (i + 1) j k). lia.
Qed.

Lemma Forall_y_rows nx ny nz :
  0 < nx →
  Forall (unit_pair_row (nx * ny * nz) nx ny) (y_rows (nx * ny * nz) nx ny nz).
Proof.
  intros Hnx. unfold y_rows. apply Forall_emit. intros k Hk.
  apply Forall_emit. intros j Hj. apply Forall_emit. intros i Hi.
  apply Forall_singleton. apply unit_pair_row_intro; [lia | | by right; left].
  pose proof (index_bound nx ny nz i (j + 1) k). lia.
Qed.

Lemma Forall_z_rows nx ny nz :
  0 < nx → 0 < ny →
  Forall (unit_pair_row (nx * ny * nz) nx ny) (z_rows (nx * ny * nz) nx ny nz).
Proof.
  intros Hnx Hny. unfold z_rows. apply Forall_emit. intros k Hk.
  apply Forall_emit. intros j Hj. apply Forall_emit. intros i Hi.
  apply Forall_singleton. apply unit_pair_row_intro; [nia | | by right; right].
  pose proof (index_bound nx ny nz i j (k + 1)). lia.
Qed.

Lemma Forall_length_rows C nx ny nz :
  Forall (fun row : list Z => length row = C)
    (x_rows C nx ny nz ++ y_rows C nx ny nz ++ z_rows C nx ny nz).
Proof.
  rewrite !Forall_app. unfold x_rows, y_rows, z_rows.
  repeat split; apply Forall_emit; intros k Hk; apply Forall_emit; intros j Hj;
    apply Forall_emit; intros i Hi; apply Forall_singleton, length_pair_row.
Qed.

End FirstDerivFacts.

(** ** The module functions *)

Section Pgrav3dFacts.
Context {num : Type} `{NumOps num} `{Prism num}.

Notation "x ←$ m ; k" := (bind m (fun x => k))
  (at level 100, m at next level, right associativity).

(** *** _build_pgrav3d_first_deriv *)

(** C3. On a bound mesh with positive dimensions the first-derivative
    operator is built without error; it has
    [(nx-1)*ny*nz + nx*(ny-1)*nz + nx*ny*(nz-1)] rows of [nx*ny*nz] columns;
    the rows are the x-pairs, then the y-pairs, then the z-pairs, the row of
    a pair having [+1] at the flattened index of the cell and [-1] at the
    index of its neighbour (1 further along x, [nx] along y, [nx*ny] along
    z); every row has exactly one [+1], one [-1] and zeros elsewhere. *)
Theorem first_deriv_operator (s : state num) (m : mesh) (nx ny nz : nat) :
  _mesh s = Some m → shape m = (nz, ny, nx) →
  0 < nx → 0 < ny → 0 < nz →
  let C := nx * ny * nz in
  let X := (nx - 1) * ny * nz in
  let Y := nx * (ny - 1) * nz in
  let Zr := nx * ny * (nz - 1) in
  ∃ first_deriv : list (list Z),
    _build_pgrav3d_first_deriv s = (inr first_deriv, s)
    ∧ length first_deriv = X + Y + Zr
    ∧ Forall (fun row => length row = C) first_deriv
    ∧ (∀ i j k, i + 1 < nx → j < ny → k < nz →
         first_deriv !! (i + j * (nx - 1) + k * (nx - 1) * ny)
         = Some (FirstDeriv.pair_row C (FirstDeriv.param_index nx ny i j k)
                   (FirstDeriv.param_index nx ny (i + 1) j k)))
    ∧ (∀ i j k, i < nx → j + 1 < ny → k < nz →
         first_deriv !! (X + (i + j * nx + k * nx * (ny - 1)))
         = Some (FirstDeriv.pair_row C (FirstDeriv.param_index nx ny i j k)
                   (FirstDeriv.param_index nx ny i (j + 1) k)))
    ∧ (∀ i j k, i < nx → j < ny → k + 1 < nz →
         first_deriv !! (X + Y + (i + j * nx + k * nx * ny))
         = Some (FirstDeriv.pair_row C (FirstDeriv.param_index nx ny i j k)
                   (FirstDeriv.param_index nx ny i j (k + 1))))
    ∧ Forall (FirstDeriv.unit_pair_row C nx ny) first_deriv.
Proof.
  intros Hm Hshape Hnx Hny Hnz C X Y Zr.
  exists (FirstDeriv.x_rows C nx ny nz ++ FirstDeriv.y_rows C nx ny nz
          ++ FirstDeriv.z_rows C nx ny nz).
  split.
  { unfold _build_pgrav3d_first_deriv, bind, assert_bound, lift.
    rewrite Hm, Hshape. by rewrite first_deriv_of_shape_rows. }
  split.
  { rewrite !length_app, length_x_rows, length_y_rows, length_z_rows.
    unfold X, Y, Zr. lia. }
  assert (Hall : Forall (FirstDeriv.unit_pair_row C nx ny)
            (FirstDeriv.x_rows C nx ny nz ++ FirstDeriv.y_rows C nx ny nz
             ++ FirstDeriv.z_rows C nx ny nz)).
  { rewrite !Forall_app. split; [apply Forall_x_rows|].
    split; [by apply Forall_y_rows | by apply Forall_z_rows]. }
  split; [apply Forall_length_rows|].
  split.
  { intros i j k Hi Hj Hk. rewrite lookup_app_l.
    - by apply lookup_x_rows.
    - rewrite length_x_rows. unfold X.
      pose proof (index_bound (nx - 1) ny nz i j k). lia. }
  split.
  { intros i j k Hi Hj Hk.
    rewrite (lookup_app_plus _ _ _ X) by apply length_x_rows.
    rewrite lookup_app_l.
    - by apply lookup_y_rows.
    - rewrite length_y_rows.
      pose proof (index_bound nx (ny - 1) nz i j k). lia. }
  split; [|done].
  intros i j k Hi Hj Hk.
  rewrite <- Nat.add_assoc.
  rewrite (lookup_app_plus _ _ _ X) by apply length_x_rows.
  rewrite (lookup_app_plus _ _ _ Y) by apply length_y_rows.
  by apply lookup_z_rows.
Qed.

(** *** fill_mesh *)

Lemma for_each_fill (l : list (num * nat)) (s : state num) :
  for_each l (fun '(value, cell) => store_cell_value cell value) s
  = (inr tt, with_cells (filled_cells l (cells s)) s).
Proof.
  revert s. induction l as [|[v c] l IH]; intros [j m d dv cs gs k].
  - done.
  - cbn [for_each]. unfold bind at 1. unfold store_cell_value at 1, modify.
    rewrite IH. done.
Qed.



(** *** Dictionaries *)

Lemma has_key_getitem {V} (d : list (string * V)) (field : string) :
  bool_decide (field ∈ d.*1) = true ↔ is_Some (getitem d field).
Proof.
  rewrite bool_decide_eq_true.
  induction d as [|[k v] d IH]; cbn.
  - split; [by intros ?%elem_of_nil | by intros [? ?]].
  - rewrite elem_of_cons. destruct (decide (k = field)) as [->|Hne].
    + split; [by eauto | by left].
    + rewrite <- IH. split; [intros [->|?]; done | by right].
Qed.

Lemma has_key_true (d : list (string * nat)) (field : string) (g : nat) :
  getitem d field = Some g → has_key d field = true.
Proof. intros Hg. apply has_key_getitem. by rewrite Hg. Qed.

Lemma has_key_false (d : list (string * nat)) (field : string) :
  getitem d field = None → has_key d field = false.
Proof.
  intros Hg. destruct (has_key d field) eqn:Hk; [|done].
  apply has_key_getitem in Hk as [g Hk]. congruence.
Qed.

(** *** extract_data_vector *)

Lemma extend_with_values (d : list (string * nat)) (field : string)
    (data_vector : list num) (s : state num) :
  carries_values (grids s) d →
  extend_with d false field data_vector s
  = (inr (data_vector ++ field_values (grids s) d field), s).
Proof.
  intros Hv. unfold extend_with, field_values.
  destruct (getitem d field) as [g|] eqn:Hg.
  - rewrite (has_key_true _ _ _ Hg).
    destruct (Hv field g Hg) as [v Hgv].
    unfold bind, lookup_field, read_value, get, ret. rewrite Hg.
    cbn. by rewrite Hgv.
  - rewrite (has_key_false _ _ Hg). unfold ret. by rewrite app_nil_r.
Qed.

Lemma extract_data_vector_values (d : list (string * nat)) (s : state num) :
  carries_values (grids s) d →
  extract_data_vector d false s
  = (inr (concat (map (field_values (grids s) d) fields)), s).
Proof.
  intros Hv. unfold extract_data_vector, fields.
  unfold bind at 1. rewrite extend_with_values by done.
  unfold bind at 1. rewrite extend_with_values by done.
  unfold bind at 1. rewrite extend_with_values by done.
  unfold bind at 1. rewrite extend_with_values by done.
  unfold bind at 1. rewrite extend_with_values by done.
  unfold bind at 1. rewrite extend_with_values by done.
  unfold bind at 1. rewrite extend_with_values by done.
  unfold ret. cbn [map concat]. by rewrite app_nil_r, <- !app_assoc.
Qed.

Lemma well_formed_carries (gs : nat → grid num) (d : list (string * nat)) :
  well_formed gs d → carries_values gs d.
Proof. intros Hwf field g Hg. destruct (Hwf field g Hg) as (v & -> & _). eauto. Qed.

(** *** The grid branch of calc_adjustment *)

Lemma for_fields_adjust (d : list (string * nat)) (l : list string)
    (a : list num) (s : state num) :
  _data s = Some d →
  ∃ a', for_fields l (adjust_field d) (Array a) s
        = (inr (Array a'), with_grids (adjusted_grids d l a (grids s)) s).
Proof.
  revert a s. induction l as [|field l IH]; intros a [j m ds dv cs gs k] Hd;
    cbn in Hd; subst ds.
  - by exists a.
  - cbn [for_fields adjusted_grids].
    unfold bind at 1. unfold adjust_field, read_global, bind. cbn.
    destruct (getitem d field) as [g|] eqn:Hg.
    + rewrite (has_key_true _ _ _ Hg). unfold lookup_field. rewrite Hg. cbn.
      edestruct (IH (drop (length (grid_x (gs g))) a)) as [a' Ha'];
        [|rewrite Ha'; by eexists]. done.
    + rewrite (has_key_false _ _ Hg). cbn.
      edestruct (IH a) as [a' Ha']; [|rewrite Ha'; by eexists]. done.
Qed.


(** *** _build_pgrav3d_jacobian *)

Lemma bind_inr {A B} (m : M num A) (f : A → M num B) (s s' : state num) (a : A) :
  m s = (inr a, s') → bind m f s = f a s'.
Proof. unfold bind. by intros ->. Qed.

Lemma bind_inl {A B} (m : M num A) (f : A → M num B) (s s' : state num)
    (e : error) :
  m s = (inl e, s') → bind m f s = (inl e, s').
Proof. unfold bind. by intros ->. Qed.

Lemma assert_bound_some {A} (g : state num → option A) (msg : assertion)
    (s : state num) (a : A) :
  g s = Some a → assert_bound g msg s = (inr a, s).
Proof. unfold assert_bound. by intros ->. Qed.

Lemma modify_with_jacobian (j' j : option (list (list num))) m d dv cs gs k :
  modify (with_jacobian j') (State j m d dv cs gs k)
  = (inr tt, State j' m d dv cs gs k).
Proof. done. Qed.

Lemma call_kernel_value (function : calculator num) (c : nat) (x y z : num)
    (j : option (list (list num))) m d dv cs gs (k : nat) :
  call_kernel function c x y z (State j m d dv cs gs k)
  = (inr (function num_one (cell_x1 (cs c)) (cell_x2 (cs c)) (cell_y1 (cs c))
            (cell_y2 (cs c)) (cell_z1 (cs c)) (cell_z2 (cs c)) x y z),
     State j m d dv cs gs (S k)).
Proof. done. Qed.

Lemma comprehension_kernel (function : calculator num) (x y z : num)
    (mesh : mesh) (j : option (list (list num))) m d dv cs gs (k : nat) :
  comprehension (fun cell => call_kernel function cell x y z) (ravel mesh)
    (State j m d dv cs gs k)
  = (inr (kernel_row function cs mesh (x, y, z)),
     State j m d dv cs gs (k + size mesh)).
Proof.
  unfold kernel_row, size. generalize (ravel mesh). intros l. revert k.
  induction l as [|c l IH]; intros k.
  - cbn. by rewrite Nat.add_0_r.
  - cbn [comprehension].
    erewrite bind_inr by apply call_kernel_value.
    erewrite bind_inr by apply IH.
    unfold ret. cbn [map length fst snd].
    by replace (S k + length l) with (k + S (length l)) by lia.
Qed.

Lemma for_each_rows (function : calculator num) (mesh : mesh)
    (coords : list (num * num * num)) (acc : list (list num))
    m d dv cs gs (k : nat) :
  for_each coords (fun '(x, y, z) =>
    row ←$ comprehension (fun cell => call_kernel function cell x y z)
                         (ravel mesh);
    append_row row) (State (Some acc) m d dv cs gs k)
  = (inr tt,
     State (Some (acc ++ map (kernel_row function cs mesh) coords))
           m d dv cs gs (k + length coords * size mesh)).
Proof.
  revert acc k. induction coords as [|[[x y] z] coords IH]; intros acc k.
  - cbn. by rewrite app_nil_r, Nat.add_0_r.
  - cbn [for_each].
    erewrite bind_inr.
    2: { erewrite bind_inr by apply comprehension_kernel.
         instantiate (1 := State (Some (acc ++ [kernel_row function cs mesh (x, y, z)]))
                              m d dv cs gs (k + size mesh)).
         done. }
    rewrite IH. cbn [map length]. rewrite <- app_assoc.
    by replace (k + size mesh + length coords * size mesh)
      with (k + S (length coords) * size mesh) by lia.
Qed.

Lemma calculators_fields (field : string) :
  field ∈ fields → is_Some (getitem _calculators field).
Proof.
  unfold fields. rewrite !elem_of_cons, elem_of_nil.
  intros [->|[->|[->|[->|[->|[->|[->|[]]]]]]]]; by eexists.
Qed.

Lemma length_field_rows cs gs mesh (d : list (string * nat)) (field : string) :
  field ∈ fields →
  length (field_rows cs gs mesh d field) = length (coordinates gs d field).
Proof.
  intros [function Hf]%calculators_fields. unfold field_rows.
  by rewrite Hf, length_map.
Qed.

Lemma jacobian_block_rows (mesh : mesh) (d : list (string * nat))
    (field : string) (acc : list (list num)) m ds dv cs gs (k : nat) :
  field ∈ fields →
  jacobian_block mesh d field (State (Some acc) m ds dv cs gs k)
  = (inr tt,
     State (Some (acc ++ field_rows cs gs mesh d field)) m ds dv cs gs
           (k + length (field_rows cs gs mesh d field) * size mesh)).
Proof.
  intros Hfield. rewrite length_field_rows by done.
  destruct (calculators_fields field Hfield) as [function Hf].
  unfold jacobian_block, field_rows, coordinates. rewrite Hf.
  destruct (getitem d field) as [g|] eqn:Hg.
  - rewrite (has_key_true _ _ _ Hg).
    unfold bind at 1. unfold lookup_field. rewrite Hg. unfold ret at 1.
    unfold bind at 1. unfold get at 1. cbn [grids].
    unfold bind at 1. unfold ret at 1.
    apply for_each_rows.
  - rewrite (has_key_false _ _ Hg). unfold ret. cbn.
    by rewrite app_nil_r, Nat.add_0_r.
Qed.

Lemma for_each_blocks (mesh : mesh) (d : list (string * nat))
    (l : list string) (acc : list (list num)) m ds dv cs gs (k : nat) :
  l ⊆ fields →
  for_each l (jacobian_block mesh d) (State (Some acc) m ds dv cs gs k)
  = (inr tt,
     State (Some (acc ++ concat (map (field_rows cs gs mesh d) l))) m ds dv
           cs gs
           (k + length (concat (map (field_rows cs gs mesh d) l)) * size mesh)).
Proof.
  revert acc k. induction l as [|field l IH]; intros acc k Hl.
  - cbn. by rewrite app_nil_r, Nat.add_0_r.
  - cbn [for_each]. unfold bind at 1.
    rewrite jacobian_block_rows by (apply Hl; by left).
    rewrite IH by (intros f Hf; apply Hl; by right).
    cbn [map concat]. rewrite length_app, <- app_assoc.
    set (n1 := length (field_rows cs gs mesh d field)).
    set (n2 := length (concat (map (field_rows cs gs mesh d) l))).
    by replace (k + n1 * size mesh + n2 * size mesh)
      with (k + (n1 + n2) * size mesh) by lia.
Qed.

(** The first call on an empty cache assembles the rows and stores them. *)
Lemma build_jacobian_fresh (estimate : list num) (mesh : mesh)
    (d : list (string * nat)) dv cs gs (k : nat) :
  _build_pgrav3d_jacobian estimate (State None (Some mesh) (Some d) dv cs gs k)
  = (inr (jacobian_rows cs gs mesh d),
     State (Some (jacobian_rows cs gs mesh d)) (Some mesh) (Some d) dv cs gs
           (k + length (jacobian_rows cs gs mesh d) * size mesh)).
Proof.
  unfold _build_pgrav3d_jacobian, jacobian_rows.
  erewrite bind_inr by (by apply assert_bound_some).
  erewrite bind_inr by (by apply assert_bound_some).
  erewrite bind_inr by done. cbn [_jacobian].
  erewrite bind_inr by apply modify_with_jacobian.
  erewrite bind_inr by (by apply for_each_blocks).
  erewrite bind_inr by done. cbn [_jacobian default app].
  erewrite bind_inr by apply modify_with_jacobian.
  done.
Qed.

(** A call on a filled cache returns it and leaves the state alone. *)
Lemma build_jacobian_cached (estimate : list num) (s : state num)
    (mesh : mesh) (d : list (string * nat)) (jacobian : list (list num)) :
  _mesh s = Some mesh → _data s = Some d → _jacobian s = Some jacobian →
  _build_pgrav3d_jacobian estimate s = (inr jacobian, s).
Proof.
  intros Hm Hd Hj. unfold _build_pgrav3d_jacobian, bind, assert_bound, get.
  by rewrite Hm, Hd, Hj.
Qed.

(** C1. After a mesh and data are bound the Jacobian builder returns,
    whatever the estimate; two calls with any two estimates return the same
    matrix; the second call returns the memoized matrix and changes nothing,
    so that no kernel is invoked again; on an empty cache the matrix is the
    one assembled from the kernels with unit density and the cell geometry,
    at the cost of one kernel invocation per entry. *)
Theorem jacobian_built_once (s : state num) (mesh : mesh)
    (d : list (string * nat)) (e1 e2 : list num) :
  _mesh s = Some mesh → _data s = Some d →
  ∃ jacobian s1,
    _build_pgrav3d_jacobian e1 s = (inr jacobian, s1)
    ∧ _build_pgrav3d_jacobian e2 s = (inr jacobian, s1)
    ∧ _build_pgrav3d_jacobian e2 s1 = (inr jacobian, s1)
    ∧ _jacobian s1 = Some jacobian
    ∧ (_jacobian s = None →
         jacobian = jacobian_rows (cells s) (grids s) mesh d
         ∧ kernel_calls s1 = kernel_calls s + length jacobian * size mesh)
    ∧ (∀ j, _jacobian s = Some j → jacobian = j ∧ s1 = s).
Proof.
  intros Hm Hd. destruct s as [[j|] ms ds dv cs gs k]; cbn in Hm, Hd; subst.
  - exists j, (State (Some j) (Some mesh) (Some d) dv cs gs k).
    rewrite !(build_jacobian_cached _ _ mesh d j) by done.
    cbn. do 4 (split; [done|]). split; [done|]. by intros j' [= ->].
  - exists (jacobian_rows cs gs mesh d),
      (State (Some (jacobian_rows cs gs mesh d)) (Some mesh) (Some d) dv cs gs
             (k + length (jacobian_rows cs gs mesh d) * size mesh)).
    rewrite !build_jacobian_fresh.
    split; [done|]. split; [done|].
    split; [by apply (build_jacobian_cached _ _ mesh d)|].
    split; [done|]. split; [by intros _|]. by intros j' [=].
Qed.

(** *** The canonical order *)

Lemma concat_map_present {A} (F : string → list A) (d : list (string * nat))
    (l : list string) :
  (∀ f, getitem d f = None → F f = []) →
  concat (map F (filter (fun f => f ∈ d.*1) l)) = concat (map F l).
Proof.
  intros HF. induction l as [|f l IH]; [done|].
  rewrite filter_cons. destruct (decide (f ∈ d.*1)) as [Hin|Hout].
  - cbn [map concat]. by rewrite IH.
  - cbn [map concat]. rewrite IH, HF; [done|].
    destruct (getitem d f) eqn:Hg; [|done].
    apply has_key_true in Hg. unfold has_key in Hg.
    by apply bool_decide_eq_true in Hg.
Qed.

Lemma length_concat_offset {A} (F : string → list A) (gs : nat → grid num)
    (d : list (string * nat)) (l : list string) :
  (∀ f, f ∈ l → length (F f) = field_count gs d f) →
  length (concat (map F l)) = offset gs d l.
Proof.
  unfold offset. induction l as [|f l IH]; intros HF; [done|].
  cbn [map concat sum_list_with]. rewrite length_app, IH, HF; [done|by left|].
  intros f' Hf'. apply HF. by right.
Qed.

Lemma length_field_values (gs : nat → grid num) (d : list (string * nat))
    (field : string) :
  well_formed gs d →
  length (field_values gs d field) = field_count gs d field.
Proof.
  intros Hwf. unfold field_values, field_count.
  destruct (getitem d field) as [g|] eqn:Hg; [|done].
  destruct (Hwf field g Hg) as (v & -> & -> & _). done.
Qed.

Lemma length_coordinates (gs : nat → grid num) (d : list (string * nat))
    (field : string) :
  well_formed gs d →
  length (coordinates gs d field) = field_count gs d field.
Proof.
  intros Hwf. unfold coordinates, field_count, zip3.
  destruct (getitem d field) as [g|] eqn:Hg; [|done].
  destruct (Hwf field g Hg) as (v & _ & Hx & Hy & Hz).
  rewrite !length_zip. lia.
Qed.

Lemma lookup_block {A} (F : string → list A) (gs : nat → grid num)
    (d : list (string * nat)) (pre post : list string) (field : string)
    (t : nat) :
  (∀ f, f ∈ pre → length (F f) = field_count gs d f) →
  t < length (F field) →
  concat (map F (pre ++ field :: post)) !! (offset gs d pre + t) = F field !! t.
Proof.
  intros Hpre Ht. rewrite map_app, concat_app. cbn [map concat].
  rewrite (lookup_app_plus _ _ _ (offset gs d pre))
    by by apply length_concat_offset.
  by rewrite lookup_app_l.
Qed.

Lemma build_jacobian_empty_cache (estimate : list num) (s : state num)
    (mesh : mesh) (d : list (string * nat)) :
  _mesh s = Some mesh → _data s = Some d → _jacobian s = None →
  ∃ s1, _build_pgrav3d_jacobian estimate s
        = (inr (jacobian_rows (cells s) (grids s) mesh d), s1).
Proof.
  destruct s as [j ms ds dv cs gs k]. cbn. intros -> -> ->.
  eexists. apply build_jacobian_fresh.
Qed.

(** C4. For a well-formed observation set bound with a mesh and an empty
    cache, the data vector is the concatenation of the observed values of
    the present components in the order gz, gxx, gxy, gxz, gyy, gyz, gzz; the
    Jacobian is the concatenation of their row blocks in the same order, the
    rows of a block in the order of the observation arrays; hence entry [i]
    of the data vector is the observation whose point gives row [i] of the
    Jacobian. *)
Theorem canonical_order (s : state num) (mesh : mesh) (d : list (string * nat))
    (estimate : list num) :
  _mesh s = Some mesh → _data s = Some d → _jacobian s = None →
  well_formed (grids s) d →
  ∃ data_vector jacobian s1,
    extract_data_vector d false s = (inr data_vector, s)
    ∧ _build_pgrav3d_jacobian estimate s = (inr jacobian, s1)
    ∧ data_vector
      = concat (map (field_values (grids s) d)
                    (filter (fun f => f ∈ d.*1) fields))
    ∧ jacobian
      = concat (map (field_rows (cells s) (grids s) mesh d)
                    (filter (fun f => f ∈ d.*1) fields))
    ∧ length jacobian = length data_vector
    ∧ ∀ pre field post g,
        fields = pre ++ field :: post → getitem d field = Some g →
        ∃ function values,
          getitem _calculators field = Some function
          ∧ grid_value (grids s g) = Some values
          ∧ ∀ t, t < length values →
              ∃ v x y z,
                values !! t = Some v
                ∧ grid_x (grids s g) !! t = Some x
                ∧ grid_y (grids s g) !! t = Some y
                ∧ grid_z (grids s g) !! t = Some z
                ∧ data_vector !! (offset (grids s) d pre + t) = Some v
                ∧ jacobian !! (offset (grids s) d pre + t)
                  = Some (kernel_row function (cells s) mesh (x, y, z)).
Proof.
  intros Hm Hd Hj Hwf.
  exists (concat (map (field_values (grids s) d) fields)),
         (jacobian_rows (cells s) (grids s) mesh d).
  destruct (build_jacobian_empty_cache estimate s mesh d Hm Hd Hj) as [s1 Hb].
  exists s1.
  split; [by apply extract_data_vector_values, well_formed_carries|].
  split; [done|].
  split.
  { rewrite concat_map_present; [done|].
    intros f Hf. unfold field_values. by rewrite Hf. }
  split.
  { unfold jacobian_rows. rewrite concat_map_present; [done|].
    intros f Hf. unfold field_rows, coordinates. rewrite Hf.
    by destruct (getitem _calculators f). }
  assert (Hrows : ∀ f, f ∈ fields →
            length (field_rows (cells s) (grids s) mesh d f)
            = field_count (grids s) d f).
  { intros f Hf. rewrite length_field_rows by done.
    by apply length_coordinates. }
  split.
  { unfold jacobian_rows.
    rewrite (length_concat_offset _ (grids s) d) by done.
    rewrite (length_concat_offset _ (grids s) d); [done|].
    intros f _. by apply length_field_values. }
  intros pre field post g Hfields Hg.
  assert (Hin : field ∈ fields)
    by (rewrite Hfields; apply elem_of_app; right; by left).
  destruct (calculators_fields field Hin) as [function Hf].
  destruct (Hwf field g Hg) as (values & Hv & Hx & Hy & Hz).
  exists function, values. split; [done|]. split; [done|].
  intros t Ht.
  destruct (lookup_lt_is_Some_2 values t Ht) as [v Hvt].
  destruct (lookup_lt_is_Some_2 (grid_x (grids s g)) t) as [x Hxt]; [lia|].
  destruct (lookup_lt_is_Some_2 (grid_y (grids s g)) t) as [y Hyt]; [lia|].
  destruct (lookup_lt_is_Some_2 (grid_z (grids s g)) t) as [z Hzt]; [lia|].
  exists v, x, y, z. do 4 (split; [done|]).
  unfold jacobian_rows. rewrite Hfields. split.
  - rewrite lookup_block.
    + unfold field_values. by rewrite Hg, Hv.
    + intros f _. by apply length_field_values.
    + rewrite length_field_values by done. unfold field_count. rewrite Hg. lia.
  - rewrite lookup_block.
    + unfold field_rows, coordinates, zip3. rewrite Hf, Hg.
      rewrite list_lookup_fmap.
      assert (Hzip : zip (zip (grid_x (grids s g)) (grid_y (grids s g)))
                       (grid_z (grids s g)) !! t = Some (x, y, z))
        by (rewrite !lookup_zip_Some; done).
      by rewrite Hzip.
    + intros f Hpre. apply Hrows. rewrite Hfields. apply elem_of_app. by left.
    + rewrite Hrows by done. unfold field_count. rewrite Hg. lia.
Qed.

(** *** calc_adjustment *)

Lemma build_jacobian_returns (estimate : list num) (s : state num)
    (mesh : mesh) (d : list (string * nat)) :
  _mesh s = Some mesh → _data s = Some d →
  ∃ jacobian s1,
    _build_pgrav3d_jacobian estimate s = (inr jacobian, s1)
    ∧ _jacobian s1 = Some jacobian ∧ _mesh s1 = Some mesh ∧ _data s1 = Some d
    ∧ _data_vector s1 = _data_vector s ∧ cells s1 = cells s
    ∧ grids s1 = grids s.
Proof.
  destruct s as [[j|] ms ds dv cs gs k]; cbn; intros -> ->.
  - exists j. eexists. split; [by eapply build_jacobian_cached|]. done.
  - eexists _, _. split; [apply build_jacobian_fresh|]. done.
Qed.

Lemma build_jacobian_bound (estimate : list num) (s s1 : state num)
    (jacobian : list (list num)) :
  _build_pgrav3d_jacobian estimate s = (inr jacobian, s1) →
  ∃ mesh d, _mesh s = Some mesh ∧ _data s = Some d.
Proof.
  unfold _build_pgrav3d_jacobian, bind, assert_bound.
  destruct (_mesh s) as [mesh|]; [|done].
  destruct (_data s) as [d|]; [|done]. by eauto.
Qed.

Lemma NoDup_fields : NoDup fields.
Proof. apply (bool_decide_unpack _). by vm_compute. Qed.

Lemma grid_x_alter (v : option (list num)) (g0 g : nat) (gs : nat → grid num) :
  grid_x (alter (set_grid_value v) g0 gs g) = grid_x (gs g).
Proof.
  destruct (decide (g0 = g)) as [->|Hne].
  - by rewrite fn_lookup_alter.
  - by rewrite fn_lookup_alter_ne.
Qed.

Lemma field_count_alter (v : option (list num)) (g0 : nat)
    (gs : nat → grid num) (d : list (string * nat)) (field : string) :
  field_count (alter (set_grid_value v) g0 gs) d field = field_count gs d field.
Proof.
  unfold field_count. destruct (getitem d field); [|done].
  by rewrite grid_x_alter.
Qed.

Lemma offset_alter (v : option (list num)) (g0 : nat)
    (gs : nat → grid num) (d : list (string * nat)) (pre : list string) :
  offset (alter (set_grid_value v) g0 gs) d pre = offset gs d pre.
Proof.
  unfold offset. induction pre as [|f pre IH]; [done|].
  cbn [sum_list_with]. by rewrite IH, field_count_alter.
Qed.

(** The grid branch leaves alone every object that no component names. *)
Lemma adjusted_grids_frame (d : list (string * nat)) (l : list string)
    (a : list num) (gs : nat → grid num) (g : nat) :
  (∀ f, f ∈ l → getitem d f ≠ Some g) →
  adjusted_grids d l a gs g = gs g.
Proof.
  revert a gs. induction l as [|f l IH]; intros a gs Hl; [done|].
  cbn [adjusted_grids].
  assert (Hl' : ∀ f', f' ∈ l → getitem d f' ≠ Some g)
    by (intros f' Hf'; apply Hl; by right).
  destruct (getitem d f) as [g0|] eqn:Hg0; [|by apply IH].
  rewrite IH by done. apply fn_lookup_alter_ne.
  intros ->. by apply (Hl f); [left|].
Qed.

(** The grid branch keeps the coordinates of every grid. *)
Lemma adjusted_grids_coordinates (d : list (string * nat)) (l : list string)
    (a : list num) (gs : nat → grid num) (g : nat) :
  grid_x (adjusted_grids d l a gs g) = grid_x (gs g)
  ∧ grid_y (adjusted_grids d l a gs g) = grid_y (gs g)
  ∧ grid_z (adjusted_grids d l a gs g) = grid_z (gs g).
Proof.
  revert a gs. induction l as [|f l IH]; intros a gs; [done|].
  cbn [adjusted_grids]. destruct (getitem d f) as [g0|]; [|by apply IH].
  destruct (IH (drop (length (grid_x (gs g0))) a)
              (alter (set_grid_value (Some (take (length (grid_x (gs g0))) a)))
                     g0 gs)) as (-> & -> & ->).
  destruct (decide (g0 = g)) as [->|Hne].
  - by rewrite fn_lookup_alter.
  - by rewrite fn_lookup_alter_ne.
Qed.

(** On distinct grid objects the grid branch leaves in every component its
    own slice of the vector. *)
Lemma adjusted_grids_slices (d : list (string * nat)) (l : list string)
    (a : list num) (gs : nat → grid num) :
  NoDup l →
  (∀ f1 f2 g, f1 ∈ l → f2 ∈ l →
     getitem d f1 = Some g → getitem d f2 = Some g → f1 = f2) →
  ∀ pre field post g,
    l = pre ++ field :: post → getitem d field = Some g →
    grid_value (adjusted_grids d l a gs g)
    = Some (take (field_count gs d field) (drop (offset gs d pre) a)).
Proof.
  intros Hnd Hdist pre. revert l a gs Hnd Hdist.
  induction pre as [|f0 pre IH]; intros l a gs Hnd Hdist field post g -> Hg.
  - cbn [app adjusted_grids]. rewrite Hg.
    rewrite adjusted_grids_frame.
    + rewrite fn_lookup_alter. unfold field_count. by rewrite Hg.
    + intros f Hf Hfg. apply NoDup_cons in Hnd as [Hnotin _].
      apply Hnotin.
      rewrite (Hdist field f g); [done|by left|by right|done|done].
  - cbn [app adjusted_grids].
    apply NoDup_cons in Hnd as [Hnotin Hnd].
    assert (Hdist' : ∀ f1 f2 g', f1 ∈ pre ++ field :: post →
              f2 ∈ pre ++ field :: post →
              getitem d f1 = Some g' → getitem d f2 = Some g' → f1 = f2)
      by (intros f1 f2 g' H1 H2; apply Hdist; by right).
    unfold offset. cbn [sum_list_with]. fold (offset gs d pre).
    destruct (getitem d f0) as [g0|] eqn:Hg0.
    + replace (field_count gs d f0) with (length (grid_x (gs g0)))
        by (unfold field_count; by rewrite Hg0).
      rewrite (IH _ _ _ Hnd Hdist' field post g eq_refl Hg).
      by rewrite field_count_alter, offset_alter, drop_drop.
    + replace (field_count gs d f0) with 0
        by (unfold field_count; by rewrite Hg0).
      by rewrite (IH _ _ _ Hnd Hdist' field post g eq_refl Hg).
Qed.

(** C9. With [grid=True], [calc_adjustment] returns a dictionary of the very
    grid objects of the bound observation set and writes through them: where
    the prediction of the estimate is the vector [a] and the components name
    distinct grid objects, afterwards the ['value'] array of every present
    component of the session data is its slice of [a], whatever was observed
    there; the coordinates are kept. *)
Theorem grid_adjustment_overwrites (s s1 : state num) (d : list (string * nat))
    (estimate a : list num) :
  _data s = Some d →
  calc_adjustment estimate false s = (inr (AdjustedVector (Array a)), s1) →
  (∀ f1 f2 g, f1 ∈ fields → f2 ∈ fields →
     getitem d f1 = Some g → getitem d f2 = Some g → f1 = f2) →
  ∃ s2,
    calc_adjustment estimate true s = (inr (AdjustedGrid d), s2)
    ∧ _data s2 = Some d
    ∧ (∀ pre field post g,
         fields = pre ++ field :: post → getitem d field = Some g →
         grid_value (grids s2 g)
         = Some (take (field_count (grids s) d field)
                      (drop (offset (grids s) d pre) a)))
    ∧ (∀ g, grid_x (grids s2 g) = grid_x (grids s g)
            ∧ grid_y (grids s2 g) = grid_y (grids s g)
            ∧ grid_z (grids s2 g) = grid_z (grids s g)).
Proof.
  intros Hd Hvec Hdist.
  unfold calc_adjustment in Hvec.
  destruct (_build_pgrav3d_jacobian estimate s) as [[e|jacobian] s0] eqn:Hb;
    [by rewrite (bind_inl _ _ _ _ _ Hb) in Hvec|].
  rewrite (bind_inr _ _ _ _ _ Hb) in Hvec.
  destruct (build_jacobian_bound _ _ _ _ Hb) as (mesh & d' & Hm & Hd').
  rewrite Hd in Hd'. injection Hd' as <-.
  destruct (build_jacobian_returns estimate s mesh d Hm Hd)
    as (jacobian' & s0' & Hb' & _ & _ & Hd0 & _ & _ & Hgs0).
  rewrite Hb in Hb'. injection Hb' as <- <-.
  unfold bind, lift, ret in Hvec.
  destruct (numpy_dot jacobian estimate) as [e|adjusted] eqn:Hdot; [done|].
  injection Hvec as -> <-.
  destruct (for_fields_adjust d fields a s0 Hd0) as [a' Ha'].
  exists (with_grids (adjusted_grids d fields a (grids s0)) s0).
  split.
  { unfold calc_adjustment. rewrite (bind_inr _ _ _ _ _ Hb).
    unfold bind at 1. unfold lift at 1. rewrite Hdot.
    unfold adjusted_to_grid, bind, read_global. by rewrite Hd0, Ha'. }
  rewrite Hgs0. generalize (grids s). intros gs. clear Ha' Hgs0 Hb.
  destruct s0 as [j0 m0 d0 dv0 cs0 gs0 k0]. cbn in Hd0. subst d0.
  cbn [with_grids _data grids].
  split; [done|]. split.
  - by apply adjusted_grids_slices; [apply NoDup_fields|].
  - intros g. apply adjusted_grids_coordinates.
Qed.

(** *** residuals *)

(** What a successful vector prediction tells about the state. *)
Lemma calc_adjustment_vector (estimate : list num) (s s1 : state num)
    (adjusted : adjustment num) :
  calc_adjustment estimate false s = (inr adjusted, s1) →
  ∃ jacobian a,
    _build_pgrav3d_jacobian estimate s = (inr jacobian, s1)
    ∧ numpy_dot jacobian estimate = inr a
    ∧ adjusted = AdjustedVector a
    ∧ _jacobian s1 = Some jacobian
    ∧ is_Some (_mesh s1) ∧ is_Some (_data s1)
    ∧ _data_vector s1 = _data_vector s ∧ grids s1 = grids s.
Proof.
  intros Hvec. unfold calc_adjustment in Hvec.
  destruct (_build_pgrav3d_jacobian estimate s) as [[e|jacobian] s0] eqn:Hb;
    [by rewrite (bind_inl _ _ _ _ _ Hb) in Hvec|].
  rewrite (bind_inr _ _ _ _ _ Hb) in Hvec.
  destruct (build_jacobian_bound _ _ _ _ Hb) as (mesh & d & Hm & Hd).
  destruct (build_jacobian_returns estimate s mesh d Hm Hd)
    as (jacobian' & s0' & Hb' & Hj & Hm0 & Hd0 & Hdv0 & _ & Hgs0).
  rewrite Hb in Hb'. injection Hb' as <- <-.
  unfold bind, lift, ret in Hvec.
  destruct (numpy_dot jacobian estimate) as [e|a] eqn:Hdot; [done|].
  injection Hvec as <- <-.
  exists jacobian, a. rewrite Hm0, Hd0. by eauto 10.
Qed.

Lemma numpy_sub_aligned (data_vector a : list num) :
  length data_vector = length a →
  numpy_sub data_vector (AdjustedVector (Array a))
  = inr (zip_with num_sub data_vector a).
Proof. intros Hlen. unfold numpy_sub. by rewrite decide_True. Qed.

(** C6. Where the prediction of the estimate is computed, [residuals]
    returns the observed data vector minus the prediction: when the grid of
    the first key of the observation set holds observed values the vector is
    extracted again from a set that carries them; when it does not, the
    vector cached in the session is used; and when there is no cached vector
    either, the call fails with the missing-observed-values assertion. The
    difference of vectors of equal length is taken entry by entry. *)
Theorem residuals_observed_minus_predicted (s s1 : state num)
    (d rest : list (string * nat)) (key : string) (g : nat)
    (estimate : list num) (adjusted : adjustment num) :
  calc_adjustment estimate false s = (inr adjusted, s1) →
  d = (key, g) :: rest →
  (is_Some (grid_value (grids s g)) → carries_values (grids s) d →
     residuals d estimate s
     = (numpy_sub (concat (map (field_values (grids s) d) fields)) adjusted,
        s1))
  ∧ (grid_value (grids s g) = None →
     ∀ data_vector, _data_vector s = Some data_vector →
       residuals d estimate s = (numpy_sub data_vector adjusted, s1))
  ∧ (grid_value (grids s g) = None → _data_vector s = None →
     residuals d estimate s = (inl (MissingObservedValuesError key), s1))
  ∧ (∀ data_vector a, adjusted = AdjustedVector (Array a) →
       length data_vector = length a →
       numpy_sub data_vector adjusted = inr (zip_with num_sub data_vector a)).
Proof.
  intros Hvec ->.
  destruct (calc_adjustment_vector _ _ _ _ Hvec)
    as (jacobian & a & _ & _ & _ & _ & _ & _ & Hdv & Hgs).
  assert (Hres : ∀ r,
    (data_vector ←$ match grid_value (grids s1 g) with
                    | Some _ => extract_data_vector ((key, g) :: rest) false
                    | None => assert_bound _data_vector (MissingValueKey key)
                    end;
     lift (numpy_sub data_vector adjusted)) s1 = r →
    residuals ((key, g) :: rest) estimate s = r).
  { intros r <-. unfold residuals. rewrite (bind_inr _ _ _ _ _ Hvec).
    cbn [fmap list_fmap fst]. unfold bind at 1. unfold ret at 1.
    unfold bind at 1. unfold lookup_field. cbn [getitem].
    rewrite decide_True by done. unfold ret at 1.
    unfold bind at 1. unfold get at 1. done. }
  rewrite Hgs in Hres. split; [|split; [|split]].
  - intros [v Hv] Hcarry. apply Hres. rewrite Hv.
    rewrite <- Hgs in Hcarry |- *.
    by rewrite (bind_inr _ _ _ _ _ (extract_data_vector_values _ _ Hcarry)).
  - intros Hnone data_vector Hcached. apply Hres. rewrite Hnone.
    rewrite <- Hdv in Hcached.
    by rewrite (bind_inr _ _ _ _ _ (assert_bound_some _ _ _ _ Hcached)).
  - intros Hnone Hcached. apply Hres. rewrite Hnone.
    rewrite <- Hdv in Hcached.
    unfold bind, assert_bound. by rewrite Hcached.
  - intros data_vector a' -> Hlen. by apply numpy_sub_aligned.
Qed.

(** *** solve *)

Lemma for_each_valid_keys (keys : list string) (s : state num) :
  (∀ key, key ∈ keys → key ∈ fields) →
  for_each keys (fun key =>
    assert (bool_decide (key ∈ fields)) (InvalidGravityComponent key)) s
  = (inr tt, s).
Proof.
  induction keys as [|key keys IH]; intros Hkeys; [done|].
  cbn [for_each]. unfold bind at 1, assert at 1.
  rewrite bool_decide_eq_true_2 by (apply Hkeys; by left).
  unfold ret at 1. apply IH. intros k Hk. apply Hkeys. by right.
Qed.

Lemma for_each_invalid_key (keys : list string) (s : state num) (key : string) :
  key ∈ keys → key ∉ fields →
  ∃ bad, bad ∈ keys ∧ (bad ∉ fields) ∧
    for_each keys (fun key =>
      assert (bool_decide (key ∈ fields)) (InvalidGravityComponent key)) s
    = (inl (InvalidComponentError bad), s).
Proof.
  induction keys as [|k keys IH]; intros Hin Hbad; [by apply elem_of_nil in Hin|].
  cbn [for_each]. unfold bind at 1, assert at 1.
  destruct (decide (k ∈ fields)) as [Hk|Hk].
  - rewrite bool_decide_eq_true_2 by done. unfold ret at 1.
    apply elem_of_cons in Hin as [->|Hin]; [done|].
    destruct (IH Hin Hbad) as (bad & Hb1 & Hb2 & Hb3).
    exists bad. split; [by right|]. done.
  - rewrite bool_decide_eq_false_2 by done. exists k. split; [by left|]. done.
Qed.

(** C5. When the data has a key that is not one of the seven component
    names, [solve] fails with the invalid-component assertion on such a key,
    whatever the solver and the other arguments, and the state is the one
    before the call: no global is bound, no data vector extracted, no matrix
    built and no kernel invoked. *)
Theorem solve_rejects_invalid_component (lm : solver num)
    (d : list (string * nat)) (mesh : mesh) (initial : option (list num))
    (reg : regularization num) (max_it : nat) (lm_start lm_step : num)
    (max_steps : nat) (s : state num) (key : string) :
  key ∈ d.*1 → key ∉ fields →
  ∃ bad, bad ∈ d.*1 ∧ (bad ∉ fields) ∧
    solve lm d mesh initial reg max_it lm_start lm_step max_steps s
    = (inl (InvalidComponentError bad), s).
Proof.
  intros Hin Hbad.
  destruct (for_each_invalid_key d.*1 s key Hin Hbad) as (bad & Hb1 & Hb2 & Hb3).
  exists bad. split; [done|]. split; [done|].
  unfold solve. by rewrite (bind_inl _ _ _ _ _ Hb3).
Qed.

Lemma bind_inr_inv {A B} (m : M num A) (f : A → M num B) (s s' : state num)
    (b : B) :
  bind m f s = (inr b, s') →
  ∃ a s1, m s = (inr a, s1) ∧ f a s1 = (inr b, s').
Proof.
  unfold bind. destruct (m s) as [[e|a] s1]; [done|]. by eauto.
Qed.

(** With recognized keys and observed values in every component, [solve]
    binds the session and hands the initial estimate to the solver as it
    is. *)
Lemma solve_reaches_solver (lm : solver num) (d : list (string * nat))
    (mesh : mesh) (initial : option (list num)) (reg : regularization num)
    (max_it : nat) (lm_start lm_step : num) (max_steps : nat) (s : state num) :
  (∀ key, key ∈ d.*1 → key ∈ fields) → carries_values (grids s) d →
  let data_vector := concat (map (field_values (grids s) d) fields) in
  let bound :=
    State (_jacobian s) (Some mesh) (Some d) (Some data_vector) (cells s)
          (grids s) (kernel_calls s) in
  solve lm d mesh initial reg max_it lm_start lm_step max_steps s
  = lm registered reg data_vector None
       match initial with
       | None => replicate (size mesh) (num_mul num_1e_7 num_one)
       | Some initial => initial
       end
       lm_start lm_step max_steps max_it bound.
Proof.
  intros Hkeys Hcarry data_vector bound. unfold solve.
  rewrite (bind_inr _ _ _ _ _ (for_each_valid_keys _ s Hkeys)).
  destruct s as [j ms ds dv cs gs k].
  unfold bind at 1. unfold modify at 1.
  unfold bind at 1. unfold modify at 1.
  cbn [with_mesh with_data _jacobian _mesh _data _data_vector cells grids
       kernel_calls].
  erewrite bind_inr by (by apply extract_data_vector_values).
  unfold bind at 1. unfold modify at 1.
  unfold bind at 1. unfold read_global at 1.
  done.
Qed.

(** C8. When the keys are recognized and every component carries observed
    values, [solve] with an initial estimate whose length differs from the
    mesh cell count fails with [DimensionMismatchError]: [solve] itself
    hands the estimate on unchecked, and the solver, as the specification
    describes it, rejects it before the first iteration. *)
Theorem solve_rejects_dimension_mismatch
    (penalty : regularization num → list num → num)
    (normal_equations :
       regularization num → list (list num) → list num → num → list num →
       list num)
    (tolerance : num) (d : list (string * nat)) (mesh : mesh)
    (initial : list num) (reg : regularization num) (max_it : nat)
    (lm_start lm_step : num) (max_steps : nat) (s : state num) :
  (∀ key, key ∈ d.*1 → key ∈ fields) → carries_values (grids s) d →
  length initial ≠ size mesh →
  ∃ s', solve (lm_spec penalty normal_equations tolerance) d mesh
              (Some initial) reg max_it lm_start lm_step max_steps s
        = (inl DimensionMismatchError, s')
        ∧ _mesh s' = Some mesh ∧ _data s' = Some d ∧ _jacobian s' = _jacobian s
        ∧ kernel_calls s' = kernel_calls s.
Proof.
  intros Hkeys Hcarry Hlen.
  rewrite solve_reaches_solver by done.
  eexists. split.
  - unfold lm_spec, bind, assert_bound. cbn [_mesh _data].
    by rewrite decide_False.
  - done.
Qed.

(** *** The solver *)

(** A prediction that has been computed is computed again to the same
    vector, from the cache, without a change of state. *)
Lemma calc_adjustment_stable (estimate : list num) (s s1 : state num)
    (adjusted : adjustment num) :
  calc_adjustment estimate false s = (inr adjusted, s1) →
  calc_adjustment estimate false s1 = (inr adjusted, s1).
Proof.
  intros Hvec.
  destruct (calc_adjustment_vector _ _ _ _ Hvec)
    as (jacobian & a & _ & Hdot & -> & Hj & [mesh Hm] & [d Hd] & _ & _).
  unfold calc_adjustment.
  rewrite (bind_inr _ _ _ _ _ (build_jacobian_cached estimate s1 mesh d jacobian
                                 Hm Hd Hj)).
  unfold bind, lift. by rewrite Hdot.
Qed.

Section SolverFacts.
Variable penalty : regularization num → list num → num.
Variable normal_equations :
  regularization num → list (list num) → list num → num → list num → list num.
Variable tolerance : num.
Variable reg : regularization num.
Variable data_vector : list num.
Variable lm_step : num.
Variable max_steps : nat.

Lemma goal_function_stable (estimate : list num) (s s1 : state num) (goal : num) :
  goal_function penalty registered reg data_vector estimate s = (inr goal, s1) →
  goal_function penalty registered reg data_vector estimate s1 = (inr goal, s1).
Proof.
  unfold goal_function, lm_residual. intros Hg.
  apply bind_inr_inv in Hg as (residual & s2 & Hr & Hg).
  apply bind_inr_inv in Hr as (adjusted & s3 & Ha & Hr).
  cbn [_calc_adjustment registered] in Ha.
  unfold lift in Hr. injection Hr as Hr <-.
  unfold ret in Hg. injection Hg as <- <-.
  apply calc_adjustment_stable in Ha.
  erewrite bind_inr; [done|].
  erewrite bind_inr; [|exact Ha]. unfold lift. by rewrite Hr.
Qed.

(** An accepted trial has a goal function lower than the current one, and
    it is the value the next iteration computes. *)
Lemma lm_try_accepts (steps : nat) (lm_param : num) (estimate : list num)
    (goal : num) (s s2 : state num) (trial : list num) (lm_param' : num) :
  lm_try penalty normal_equations registered reg data_vector lm_step steps
         lm_param estimate goal s
  = (inr (Some (trial, lm_param')), s2) →
  ∃ trial_goal,
    num_ltb trial_goal goal = true
    ∧ goal_function penalty registered reg data_vector trial s2
      = (inr trial_goal, s2).
Proof.
  revert lm_param s. induction steps as [|steps IH]; intros lm_param s Htry.
  - done.
  - cbn [lm_try] in Htry.
    apply bind_inr_inv in Htry as (trial' & s3 & Ht & Htry).
    apply bind_inr_inv in Htry as (trial_goal & s4 & Hg & Htry).
    destruct (num_ltb trial_goal goal) eqn:Hlt.
    + unfold ret in Htry. injection Htry as -> _ <-.
      exists trial_goal. split; [done|]. by eapply goal_function_stable.
    + by eapply IH.
Qed.

Lemma non_increasing_snoc (goals : list num) (goal : num) :
  non_increasing goals →
  (∀ previous, last goals = Some previous → num_le goal previous) →
  non_increasing (goals ++ [goal]).
Proof.
  intros Hgoals Hlast i a b Ha Hb.
  destruct (decide (S i < length goals)) as [Hi|Hi].
  - rewrite lookup_app_l in Ha by lia. rewrite lookup_app_l in Hb by lia.
    by eapply Hgoals.
  - assert (Hlen : S i = length goals).
    { apply lookup_lt_Some in Hb. rewrite length_app in Hb. cbn in Hb. lia. }
    rewrite lookup_app_l in Ha by lia.
    rewrite lookup_app_r in Hb by lia.
    replace (S i - length goals) with 0 in Hb by lia.
    injection Hb as <-. apply Hlast.
    rewrite last_lookup. by replace (pred (length goals)) with i by lia.
Qed.

Lemma lm_iterate_non_increasing (max_it : nat) (lm_param : num)
    (estimate : list num) (goal_history : list num) (s s' : state num)
    (r : list num * list num * solver_state) :
  lm_iterate penalty normal_equations tolerance registered reg data_vector
             lm_step max_steps max_it lm_param estimate goal_history s
  = (inr r, s') →
  non_increasing goal_history →
  (∀ previous, last goal_history = Some previous →
     ∃ goal, num_ltb goal previous = true
             ∧ goal_function penalty registered reg data_vector estimate s
               = (inr goal, s)) →
  non_increasing r.1.2.
Proof.
  revert lm_param estimate goal_history s.
  induction max_it as [|max_it IH];
    intros lm_param estimate goal_history s Hrun Hgoals Hlast.
  - injection Hrun as <- _. done.
  - cbn [lm_iterate] in Hrun.
    apply bind_inr_inv in Hrun as (goal & s1 & Hgoal & Hrun).
    assert (Hnext : non_increasing (goal_history ++ [goal])).
    { apply non_increasing_snoc; [done|].
      intros previous Hprev. destruct (Hlast previous Hprev) as (g & Hlt & Hg).
      rewrite Hg in Hgoal. injection Hgoal as -> _. by left. }
    destruct (converged tolerance goal_history goal).
    { injection Hrun as <- _. done. }
    apply bind_inr_inv in Hrun as (step & s2 & Htry & Hrun).
    destruct step as [[trial lm_param']|].
    + eapply IH; [exact Hrun | done |].
      intros previous Hprev. rewrite last_snoc in Hprev. injection Hprev as <-.
      by eapply lm_try_accepts.
    + injection Hrun as <- _. done.
Qed.

End SolverFacts.

(** C7. Whenever [solve], run with the solver as the specification describes
    it, returns an estimate and a goal history, no entry of the history
    exceeds the one before it: an entry is the goal function of an estimate
    that was accepted because it was lower than the previous one. *)
Theorem solve_goals_non_increasing
    (penalty : regularization num → list num → num)
    (normal_equations :
       regularization num → list (list num) → list num → num → list num →
       list num)
    (tolerance : num) (d : list (string * nat)) (mesh : mesh)
    (initial : option (list num)) (reg : regularization num) (max_it : nat)
    (lm_start lm_step : num) (max_steps : nat) (s s' : state num)
    (estimate goals : list num) :
  solve (lm_spec penalty normal_equations tolerance) d mesh initial reg max_it
        lm_start lm_step max_steps s
  = (inr (estimate, goals), s') →
  non_increasing goals.
Proof.
  unfold solve. intros Hrun.
  apply bind_inr_inv in Hrun as (? & s1 & _ & Hrun).
  apply bind_inr_inv in Hrun as (? & s2 & _ & Hrun).
  apply bind_inr_inv in Hrun as (? & s3 & _ & Hrun).
  apply bind_inr_inv in Hrun as (data_vector & s4 & _ & Hrun).
  apply bind_inr_inv in Hrun as (? & s5 & _ & Hrun).
  apply bind_inr_inv in Hrun as (data_vector' & s6 & _ & Hrun).
  unfold lm_spec in Hrun.
  apply bind_inr_inv in Hrun as (? & s7 & _ & Hrun).
  apply bind_inr_inv in Hrun as (? & s8 & _ & Hrun).
  destruct (decide _); [|done].
  apply bind_inr_inv in Hrun as (r & s9 & Hit & Hrun).
  unfold ret in Hrun. injection Hrun as _ <- _.
  eapply lm_iterate_non_increasing; [exact Hit | |].
  - intros i a b Ha. by rewrite lookup_nil in Ha.
  - intros previous Hprev. done.
Qed.

End Pgrav3dFacts.

(** ** The first-derivative builder at the edges *)

Section FirstDerivEdges.
Import FirstDeriv.

(** A mesh with exactly one empty axis gives a negative row count. *)
Lemma first_deriv_of_shape_empty_axis nx ny nz :
  (nx = 0 ∧ 0 < ny ∧ 0 < nz) ∨ (0 < nx ∧ ny = 0 ∧ 0 < nz)
  ∨ (0 < nx ∧ 0 < ny ∧ nz = 0) →
  first_deriv_of_shape nz ny nx = inl ValueError.
Proof.
  intros Hcase. unfold first_deriv_of_shape, numpy_zeros.
  rewrite decide_True; [done|]. left.
  destruct Hcase as [(-> & Hy & Hz)|[(Hx & -> & Hz)|(Hx & Hy & ->)]]; nia.
Qed.

End FirstDerivEdges.

(** ** Further properties of the module functions *)

Section MoreFacts.
Context {num : Type} `{NumOps num} `{Prism num}.

Notation "x ←$ m ; k" := (bind m (fun x => k))
  (at level 100, m at next level, right associativity).

(** *** extract_data_vector, component by component *)

Lemma extract_as_loop (d : list (string * nat)) (inplace : bool)
    (s : state num) :
  extract_data_vector d inplace s = extend_all d inplace fields [] s.
Proof. reflexivity. Qed.

Lemma extend_with_absent (d : list (string * nat)) (inplace : bool)
    (field : string) (acc : list num) (s : state num) :
  getitem d field = None →
  extend_with d inplace field acc s = (inr acc, s).
Proof.
  intros Hg. unfold extend_with. by rewrite (has_key_false _ _ Hg).
Qed.

Lemma extend_with_missing (d : list (string * nat)) (inplace : bool)
    (field : string) (g : nat) (acc : list num) (s : state num) :
  getitem d field = Some g → grid_value (grids s g) = None →
  extend_with d inplace field acc s = (inl (KeyError "value"), s).
Proof.
  intros Hg Hv. unfold extend_with. rewrite (has_key_true _ _ _ Hg).
  unfold bind, lookup_field, read_value, get, ret. rewrite Hg. cbn.
  by rewrite Hv.
Qed.

Lemma extend_with_keep (d : list (string * nat)) (field : string) (g : nat)
    (v acc : list num) (s : state num) :
  getitem d field = Some g → grid_value (grids s g) = Some v →
  extend_with d false field acc s = (inr (acc ++ v), s).
Proof.
  intros Hg Hv. unfold extend_with. rewrite (has_key_true _ _ _ Hg).
  unfold bind, lookup_field, read_value, get, ret. rewrite Hg. cbn.
  by rewrite Hv.
Qed.

Lemma extend_with_delete (d : list (string * nat)) (field : string) (g : nat)
    (v acc : list num) j m ds dv cs gs k :
  getitem d field = Some g → grid_value (gs g) = Some v →
  extend_with d true field acc (State j m ds dv cs gs k)
  = (inr (acc ++ v),
     State j m ds dv cs (alter (set_grid_value None) g gs) k).
Proof.
  intros Hg Hv. unfold extend_with. rewrite (has_key_true _ _ _ Hg).
  unfold bind, lookup_field, read_value, del_value, get, ret, modify.
  rewrite Hg. cbn. rewrite Hv. cbn. by rewrite Hv.
Qed.

(** Without [inplace] the loop either reads every present component or
    stops at the first one without values; the state is untouched. *)
Lemma extend_all_keep (d : list (string * nat)) (l : list string)
    (acc : list num) (s : state num) :
  ((∀ field g, field ∈ l → getitem d field = Some g →
      is_Some (grid_value (grids s g)))
   → extend_all d false l acc s
     = (inr (acc ++ concat (map (field_values (grids s) d) l)), s))
  ∧ ((∃ field g, field ∈ l ∧ getitem d field = Some g
                 ∧ grid_value (grids s g) = None)
     → extend_all d false l acc s = (inl (KeyError "value"), s)).
Proof.
  revert acc. induction l as [|f l IH]; intros acc.
  { split; [intros _; cbn; by rewrite app_nil_r|].
    intros (field & g & Hin & _). by apply elem_of_nil in Hin. }
  cbn [extend_all map concat].
  destruct (getitem d f) as [g0|] eqn:Hg0.
  - destruct (grid_value (grids s g0)) as [v|] eqn:Hv.
    + rewrite (bind_inr _ _ _ _ _ (extend_with_keep d f g0 v acc s Hg0 Hv)).
      replace (field_values (grids s) d f) with v
        by (unfold field_values; by rewrite Hg0, Hv).
      rewrite app_assoc. destruct (IH (acc ++ v)) as [IH1 IH2].
      split.
      * intros Hall. apply IH1. intros field g Hin. apply Hall. by right.
      * intros (field & g & Hin & Hg & Hnone). apply IH2.
        apply elem_of_cons in Hin as [->|Hin]; [congruence|]. by eauto.
    + rewrite (bind_inl _ _ _ _ _ (extend_with_missing d false f g0 acc s Hg0 Hv)).
      split; [|done].
      intros Hall. destruct (Hall f g0) as [v Hv']; [by left|done|congruence].
  - rewrite (bind_inr _ _ _ _ _ (extend_with_absent d false f acc s Hg0)).
    replace (field_values (grids s) d f) with (@nil num)
      by (unfold field_values; by rewrite Hg0).
    destruct (IH acc) as [IH1 IH2]. cbn [app]. split.
    * intros Hall. apply IH1. intros field g Hin. apply Hall. by right.
    * intros (field & g & Hin & Hg & Hnone). apply IH2.
      apply elem_of_cons in Hin as [->|Hin]; [congruence|]. by eauto.
Qed.

(** X1. If some present component of the canonical list has no ['value']
    key, [extract_data_vector] without [inplace] raises [KeyError] on
    ['value'] and changes nothing; if every present component has one, it
    returns their concatenation, whatever other keys the dictionary has. *)
Theorem extract_missing_value (d : list (string * nat)) (s : state num) :
  (misses_values (grids s) d →
     extract_data_vector d false s = (inl (KeyError "value"), s))
  ∧ (components_carry_values (grids s) d →
     extract_data_vector d false s
     = (inr (concat (map (field_values (grids s) d) fields)), s)).
Proof.
  rewrite extract_as_loop. destruct (extend_all_keep d fields [] s) as [H1 H2].
  split.
  - intros (field & g & Hin & Hg & Hnone). apply H2. by eauto.
  - intros Hall. apply H1. intros field g Hin Hg. by eapply Hall.
Qed.

(** *** The in-place extraction *)

Lemma deleted_grids_frame (d : list (string * nat)) (l : list string)
    (gs : nat → grid num) (g : nat) :
  (∀ f, f ∈ l → getitem d f ≠ Some g) →
  deleted_grids d l gs g = gs g.
Proof.
  revert gs. induction l as [|f l IH]; intros gs Hl; [done|].
  cbn [deleted_grids].
  assert (Hl' : ∀ f', f' ∈ l → getitem d f' ≠ Some g)
    by (intros f' Hf'; apply Hl; by right).
  destruct (getitem d f) as [g0|] eqn:Hg0; [|by apply IH].
  rewrite IH by done. apply fn_lookup_alter_ne.
  intros ->. by apply (Hl f); [left|].
Qed.

Lemma deleted_grids_cases (d : list (string * nat)) (l : list string)
    (gs : nat → grid num) (g : nat) :
  deleted_grids d l gs g = gs g
  ∨ deleted_grids d l gs g = set_grid_value None (gs g).
Proof.
  revert gs. induction l as [|f l IH]; intros gs; [by left|].
  cbn [deleted_grids]. destruct (getitem d f) as [g0|]; [|by apply IH].
  destruct (IH (alter (set_grid_value None) g0 gs)) as [->| ->];
    (destruct (decide (g0 = g)) as [->|Hne];
     [rewrite fn_lookup_alter; right; by destruct (gs g)
     |rewrite fn_lookup_alter_ne by done; by eauto]).
Qed.

Lemma deleted_grids_named (d : list (string * nat)) (l : list string)
    (gs : nat → grid num) (field : string) (g : nat) :
  field ∈ l → getitem d field = Some g →
  deleted_grids d l gs g = set_grid_value None (gs g).
Proof.
  revert gs. induction l as [|f l IH]; intros gs Hin Hg;
    [by apply elem_of_nil in Hin|].
  cbn [deleted_grids].
  apply elem_of_cons in Hin as [->|Hin].
  - rewrite Hg.
    destruct (deleted_grids_cases d l (alter (set_grid_value None) g gs) g)
      as [->| ->]; rewrite fn_lookup_alter; by destruct (gs g).
  - destruct (getitem d f) as [g0|]; [|by apply IH].
    rewrite IH by done. destruct (decide (g0 = g)) as [->|Hne].
    + rewrite fn_lookup_alter. by destruct (gs g).
    + by rewrite fn_lookup_alter_ne.
Qed.

(** With [inplace], on distinct grid objects, the loop reads every present
    component and deletes what it has read. *)
Lemma extend_all_delete (d : list (string * nat)) (l : list string)
    (acc : list num) j m ds dv cs (gs : nat → grid num) k :
  NoDup l →
  (∀ f1 f2 g, f1 ∈ l → f2 ∈ l →
     getitem d f1 = Some g → getitem d f2 = Some g → f1 = f2) →
  (∀ field g, field ∈ l → getitem d field = Some g →
     is_Some (grid_value (gs g))) →
  extend_all d true l acc (State j m ds dv cs gs k)
  = (inr (acc ++ concat (map (field_values gs d) l)),
     State j m ds dv cs (deleted_grids d l gs) k).
Proof.
  revert acc gs. induction l as [|f l IH]; intros acc gs Hnd Hdist Hall.
  { cbn. by rewrite app_nil_r. }
  apply NoDup_cons in Hnd as [Hnotin Hnd].
  assert (Hdist' : ∀ f1 f2 g, f1 ∈ l → f2 ∈ l →
            getitem d f1 = Some g → getitem d f2 = Some g → f1 = f2)
    by (intros f1 f2 g H1 H2; apply Hdist; by right).
  cbn [extend_all map concat deleted_grids].
  destruct (getitem d f) as [g0|] eqn:Hg0.
  - destruct (Hall f g0) as [v Hv]; [by left|done|].
    rewrite (bind_inr _ _ _ _ _
               (extend_with_delete d f g0 v acc j m ds dv cs gs k Hg0 Hv)).
    assert (Hother : ∀ field g, field ∈ l → getitem d field = Some g →
              alter (set_grid_value None) g0 gs g = gs g).
    { intros field g Hin Hg. apply fn_lookup_alter_ne. intros ->.
      apply Hnotin. by rewrite (Hdist f field g); [|left|right|..]. }
    rewrite IH; [|done|done|].
    + replace (field_values gs d f) with v
        by (unfold field_values; by rewrite Hg0, Hv).
      rewrite <- app_assoc.
      replace (map (field_values (alter (set_grid_value None) g0 gs) d) l)
        with (map (field_values gs d) l); [done|].
      apply map_ext_in. intros field Hin%list_elem_of_In.
      unfold field_values. destruct (getitem d field) as [g|] eqn:Hg; [|done].
      by rewrite (Hother field g).
    + intros field g Hin Hg. rewrite (Hother field g) by done.
      apply (Hall field g); [by right|done].
  - rewrite (bind_inr _ _ _ _ _
               (extend_with_absent d true f acc _ Hg0)).
    replace (field_values gs d f) with (@nil num)
      by (unfold field_values; by rewrite Hg0).
    cbn [app]. apply IH; [done|done|].
    intros field g Hin. apply Hall. by right.
Qed.

(** X2. With [inplace=True], on a dictionary whose present components
    carry values in distinct grid objects, [extract_data_vector] returns the
    same vector as without it and deletes the ['value'] key of every present
    component, keeping the coordinates, the other objects and the globals;
    a second extraction then raises [KeyError] on ['value']. *)
Theorem extract_inplace_deletes (d : list (string * nat)) (s : state num) :
  components_carry_values (grids s) d → distinct_grids d →
  ∃ s',
    extract_data_vector d true s
    = (inr (concat (map (field_values (grids s) d) fields)), s')
    ∧ extract_data_vector d false s
      = (inr (concat (map (field_values (grids s) d) fields)), s)
    ∧ (∀ field g, field ∈ fields → getitem d field = Some g →
         grids s' g = set_grid_value None (grids s g))
    ∧ (∀ g, (∀ field, field ∈ fields → getitem d field ≠ Some g) →
         grids s' g = grids s g)
    ∧ _jacobian s' = _jacobian s ∧ _mesh s' = _mesh s ∧ _data s' = _data s
    ∧ _data_vector s' = _data_vector s ∧ cells s' = cells s
    ∧ ((∃ field, field ∈ fields ∧ is_Some (getitem d field)) →
         extract_data_vector d false s' = (inl (KeyError "value"), s')).
Proof.
  intros Hall Hdist. destruct s as [j m ds dv cs gs k].
  cbn [grids] in Hall.
  exists (State j m ds dv cs (deleted_grids d fields gs) k).
  split.
  { rewrite extract_as_loop.
    rewrite (extend_all_delete d fields [] j m ds dv cs gs k NoDup_fields);
      done. }
  split.
  { rewrite extract_as_loop.
    destruct (extend_all_keep d fields [] (State j m ds dv cs gs k))
      as [Hkeep _].
    apply Hkeep. intros field g Hin Hg. by eapply Hall. }
  cbn [grids _jacobian _mesh _data _data_vector cells].
  split; [intros field g Hin Hg; by eapply deleted_grids_named|].
  split; [intros g Hg; by apply deleted_grids_frame|].
  do 5 (split; [done|]).
  intros (field & Hin & [g Hg]). rewrite extract_as_loop.
  destruct (extend_all_keep d fields []
              (State j m ds dv cs (deleted_grids d fields gs) k))
    as [_ Hfail].
  apply Hfail. exists field, g. split; [done|]. split; [done|].
  cbn [grids]. by rewrite (deleted_grids_named d fields gs field g).
Qed.

(** *** Keys outside the canonical list *)

Lemma has_key_agree (d d' : list (string * nat)) (field : string) :
  getitem d field = getitem d' field → has_key d field = has_key d' field.
Proof.
  intros Hg. destruct (getitem d field) as [g|] eqn:Hd.
  - rewrite (has_key_true _ _ _ Hd). symmetry. by eapply has_key_true.
  - rewrite (has_key_false _ _ Hd). symmetry. by apply has_key_false.
Qed.

Lemma extend_with_agree (d d' : list (string * nat)) (inplace : bool)
    (field : string) (acc : list num) (s : state num) :
  getitem d field = getitem d' field →
  extend_with d inplace field acc s = extend_with d' inplace field acc s.
Proof.
  intros Hg. unfold extend_with, lookup_field.
  by rewrite (has_key_agree _ _ _ Hg), Hg.
Qed.

Lemma extend_all_agree (d d' : list (string * nat)) (inplace : bool)
    (l : list string) (acc : list num) (s : state num) :
  (∀ field, field ∈ l → getitem d field = getitem d' field) →
  extend_all d inplace l acc s = extend_all d' inplace l acc s.
Proof.
  revert acc s. induction l as [|f l IH]; intros acc s Hl; [done|].
  cbn [extend_all]. unfold bind.
  rewrite (extend_with_agree d d') by (apply Hl; by left).
  destruct (extend_with d' inplace f acc s) as [[e|acc'] s']; [done|].
  apply IH. intros field Hin. apply Hl. by right.
Qed.

Lemma jacobian_rows_agree (d d' : list (string * nat)) (cs : nat → cell num)
    (gs : nat → grid num) (mesh : mesh) :
  (∀ field, field ∈ fields → getitem d field = getitem d' field) →
  jacobian_rows cs gs mesh d = jacobian_rows cs gs mesh d'.
Proof.
  intros Hagree. unfold jacobian_rows. f_equal.
  apply map_ext_in. intros field Hin%list_elem_of_In.
  unfold field_rows, coordinates. by rewrite (Hagree field Hin).
Qed.

(** X3. Only [solve] looks at the names of the keys: two dictionaries that
    hold the same grid objects under the seven component names give the same
    data vector and, from an empty cache, the same Jacobian at the same
    number of kernel invocations, whatever other keys they have. *)
Theorem unknown_keys_ignored (d d' : list (string * nat)) (mesh : mesh)
    (estimate : list num) (inplace : bool) dv cs gs (k : nat) :
  (∀ field, field ∈ fields → getitem d field = getitem d' field) →
  (∀ s : state num,
     extract_data_vector d inplace s = extract_data_vector d' inplace s)
  ∧ ∃ jacobian,
      _build_pgrav3d_jacobian estimate
        (State None (Some mesh) (Some d) dv cs gs k)
      = (inr jacobian,
         State (Some jacobian) (Some mesh) (Some d) dv cs gs
               (k + length jacobian * size mesh))
      ∧ _build_pgrav3d_jacobian estimate
          (State None (Some mesh) (Some d') dv cs gs k)
        = (inr jacobian,
           State (Some jacobian) (Some mesh) (Some d') dv cs gs
                 (k + length jacobian * size mesh)).
Proof.
  intros Hagree. split.
  - intros s. rewrite !extract_as_loop. by apply extend_all_agree.
  - exists (jacobian_rows cs gs mesh d). rewrite !build_jacobian_fresh.
    by rewrite (jacobian_rows_agree d d').
Qed.

(** *** The session *)

(** X4. [clear] forgets the session and nothing else: the four globals are
    unbound, also a cached Jacobian, while the cell and grid objects are
    untouched; afterwards the Jacobian builder, [calc_adjustment] and
    [residuals] fail with the "No mesh defined" assertion and the
    first-derivative builder with its own, each leaving the state as it
    is. *)
Theorem clear_unbinds (s : state num) (estimate : list num) (grid : bool)
    (d : list (string * nat)) :
  ∃ s0,
    clear s = (inr tt, s0)
    ∧ _jacobian s0 = None ∧ _mesh s0 = None ∧ _data s0 = None
    ∧ _data_vector s0 = None
    ∧ cells s0 = cells s ∧ grids s0 = grids s
    ∧ kernel_calls s0 = kernel_calls s
    ∧ _build_pgrav3d_jacobian estimate s0 = (inl MissingMeshError, s0)
    ∧ calc_adjustment estimate grid s0 = (inl MissingMeshError, s0)
    ∧ residuals d estimate s0 = (inl MissingMeshError, s0)
    ∧ _build_pgrav3d_first_deriv s0
      = (inl (AssertionError NoMeshFirstDeriv), s0).
Proof.
  destruct s as [j m ds dv cs gs k].
  exists (State None None None None cs gs k).
  repeat split; reflexivity.
Qed.

(** X5. [solve] does not reset the Jacobian cache. With recognized keys and
    observed values present it binds the mesh, the data and the extracted
    data vector and calls the solver in that state; there the Jacobian
    builder returns a matrix cached before the call as it is, whatever the
    new mesh and data, and assembles the matrix of the new mesh and data
    only when the cache was empty. *)
Theorem solve_keeps_cache (lm : solver num) (d : list (string * nat))
    (mesh : mesh) (initial : option (list num)) (reg : regularization num)
    (max_it : nat) (lm_start lm_step : num) (max_steps : nat) (s : state num) :
  (∀ key, key ∈ d.*1 → key ∈ fields) → carries_values (grids s) d →
  let data_vector := concat (map (field_values (grids s) d) fields) in
  let bound :=
    State (_jacobian s) (Some mesh) (Some d) (Some data_vector) (cells s)
          (grids s) (kernel_calls s) in
  solve lm d mesh initial reg max_it lm_start lm_step max_steps s
  = lm registered reg data_vector None
       match initial with
       | None => replicate (size mesh) (num_mul num_1e_7 num_one)
       | Some initial => initial
       end
       lm_start lm_step max_steps max_it bound
  ∧ (∀ jacobian estimate, _jacobian s = Some jacobian →
       _build_pgrav3d_jacobian estimate bound = (inr jacobian, bound))
  ∧ (∀ estimate, _jacobian s = None →
       ∃ s1, _build_pgrav3d_jacobian estimate bound
             = (inr (jacobian_rows (cells s) (grids s) mesh d), s1)).
Proof.
  intros Hkeys Hcarry data_vector bound.
  split; [by apply solve_reaches_solver|]. split.
  - intros jacobian estimate Hj.
    by apply (build_jacobian_cached estimate bound mesh d).
  - intros estimate Hj.
    by apply (build_jacobian_empty_cache estimate bound mesh d).
Qed.

(** X6. A failed extraction leaves [solve] half done: with recognized keys
    and a present component without observed values, [solve] raises
    [KeyError] on ['value'] after the mesh and the data are bound, while the
    data vector and the Jacobian cached by an earlier session stay. *)
Theorem solve_binds_before_extraction (lm : solver num)
    (d : list (string * nat)) (mesh : mesh) (initial : option (list num))
    (reg : regularization num) (max_it : nat) (lm_start lm_step : num)
    (max_steps : nat) (s : state num) :
  (∀ key, key ∈ d.*1 → key ∈ fields) → misses_values (grids s) d →
  solve lm d mesh initial reg max_it lm_start lm_step max_steps s
  = (inl (KeyError "value"),
     State (_jacobian s) (Some mesh) (Some d) (_data_vector s) (cells s)
           (grids s) (kernel_calls s)).
Proof.
  intros Hkeys (field & g & Hin & Hg & Hnone). unfold solve.
  rewrite (bind_inr _ _ _ _ _ (for_each_valid_keys _ s Hkeys)).
  destruct s as [j ms ds dv cs gs k].
  unfold bind at 1. unfold modify at 1.
  unfold bind at 1. unfold modify at 1.
  cbn [with_mesh with_data _jacobian _mesh _data _data_vector cells grids
       kernel_calls] in *.
  erewrite bind_inl; [done|].
  rewrite extract_as_loop.
  destruct (extend_all_keep d fields [] (State j (Some mesh) (Some d) dv cs gs k))
    as [_ Hfail].
  apply Hfail. by eauto.
Qed.

(** *** The shape of the Jacobian and of the prediction *)

Lemma Forall_concat_map {A B} (P : B → Prop) (F : A → list B) (l : list A) :
  (∀ a, Forall P (F a)) → Forall P (concat (map F l)).
Proof.
  intros HF. induction l as [|a l IH]; cbn; [constructor|].
  apply Forall_app. by split.
Qed.

Lemma length_concat_map {A B} (F : A → list B) (c : A → nat) (l : list A) :
  (∀ a, a ∈ l → length (F a) = c a) →
  length (concat (map F l)) = sum_list_with c l.
Proof.
  induction l as [|a l IH]; intros HF; [done|].
  cbn [map concat sum_list_with]. rewrite length_app, IH, HF; [done|by left|].
  intros a' Ha'. apply HF. by right.
Qed.

Lemma Forall_jacobian_rows (cs : nat → cell num) (gs : nat → grid num)
    (mesh : mesh) (d : list (string * nat)) :
  Forall (fun row => length row = size mesh) (jacobian_rows cs gs mesh d).
Proof.
  unfold jacobian_rows. apply Forall_concat_map. intros field.
  unfold field_rows. destruct (getitem _calculators field); [|constructor].
  apply Forall_forall. intros row (p & -> & _)%list_elem_of_fmap.
  unfold kernel_row, size. apply length_map.
Qed.

Lemma length_jacobian_rows (cs : nat → cell num) (gs : nat → grid num)
    (mesh : mesh) (d : list (string * nat)) :
  length (jacobian_rows cs gs mesh d)
  = sum_list_with (fun field => length (coordinates gs d field)) fields.
Proof.
  unfold jacobian_rows. apply length_concat_map.
  intros field Hin. by apply length_field_rows.
Qed.

(** X7. From an empty cache the Jacobian builder returns a matrix with one
    row of [mesh.size] entries for every observation point, a component
    having as many points as the shortest of its three coordinate arrays
    and an absent component none. *)
Theorem jacobian_shape (s : state num) (mesh : mesh) (d : list (string * nat))
    (estimate : list num) :
  _mesh s = Some mesh → _data s = Some d → _jacobian s = None →
  ∃ jacobian s1,
    _build_pgrav3d_jacobian estimate s = (inr jacobian, s1)
    ∧ Forall (fun row => length row = size mesh) jacobian
    ∧ length jacobian
      = sum_list_with (fun field => length (coordinates (grids s) d field))
                      fields
    ∧ (∀ field g, getitem d field = Some g →
         length (coordinates (grids s) d field)
         = Nat.min (Nat.min (length (grid_x (grids s g)))
                            (length (grid_y (grids s g))))
                   (length (grid_z (grids s g))))
    ∧ (∀ field, getitem d field = None →
         length (coordinates (grids s) d field) = 0).
Proof.
  intros Hm Hd Hj.
  destruct (build_jacobian_empty_cache estimate s mesh d Hm Hd Hj) as [s1 Hb].
  exists (jacobian_rows (cells s) (grids s) mesh d), s1.
  split; [done|]. split; [apply Forall_jacobian_rows|].
  split; [apply length_jacobian_rows|]. split.
  - intros field g Hg. unfold coordinates, zip3. rewrite Hg.
    by rewrite !length_zip.
  - intros field Hg. unfold coordinates. by rewrite Hg.
Qed.

Lemma numpy_dot_aligned (jacobian : list (list num)) (estimate : list num) :
  jacobian ≠ [] →
  Forall (fun row => length row = length estimate) jacobian →
  numpy_dot jacobian estimate
  = inr (Array (map (fun row => dot_product row estimate) jacobian)).
Proof.
  intros Hne Hall. unfold numpy_dot. destruct jacobian as [|row rows]; [done|].
  by rewrite decide_True.
Qed.

Lemma numpy_dot_misaligned (jacobian : list (list num)) (estimate : list num)
    (n : nat) :
  jacobian ≠ [] → Forall (fun row => length row = n) jacobian →
  length estimate ≠ n →
  numpy_dot jacobian estimate = inl ValueError.
Proof.
  intros Hne Hall Hlen. unfold numpy_dot.
  destruct jacobian as [|row rows]; [done|].
  rewrite decide_False; [done|].
  intros Hall'. apply Forall_cons in Hall as [Hrow _].
  apply Forall_cons in Hall' as [Hrow' _]. congruence.
Qed.

(** X8. With at least one observation point and an empty cache,
    [calc_adjustment] builds and caches the Jacobian and then returns one
    predicted value per row when the estimate has [mesh.size] entries; for
    an estimate of any other length the matrix product raises [ValueError],
    with or without [grid], and the Jacobian stays cached. *)
Theorem calc_adjustment_alignment (s : state num) (mesh : mesh)
    (d : list (string * nat)) (estimate : list num) :
  _mesh s = Some mesh → _data s = Some d → _jacobian s = None →
  jacobian_rows (cells s) (grids s) mesh d ≠ [] →
  let jacobian := jacobian_rows (cells s) (grids s) mesh d in
  let s1 :=
    State (Some jacobian) (Some mesh) (Some d) (_data_vector s) (cells s)
          (grids s) (kernel_calls s + length jacobian * size mesh) in
  (length estimate = size mesh →
     calc_adjustment estimate false s
     = (inr (AdjustedVector
               (Array (map (fun row => dot_product row estimate) jacobian))),
        s1))
  ∧ (length estimate ≠ size mesh →
     ∀ grid, calc_adjustment estimate grid s = (inl ValueError, s1)).
Proof.
  intros Hm Hd Hj Hne jacobian s1.
  assert (Hb : _build_pgrav3d_jacobian estimate s = (inr jacobian, s1)).
  { destruct s as [j ms ds dv cs gs k]. cbn in Hm, Hd, Hj. subst.
    apply build_jacobian_fresh. }
  split.
  - intros Hlen. unfold calc_adjustment. rewrite (bind_inr _ _ _ _ _ Hb).
    unfold bind, lift. rewrite numpy_dot_aligned; [done|done|].
    rewrite Hlen. apply Forall_jacobian_rows.
  - intros Hlen grid. unfold calc_adjustment. rewrite (bind_inr _ _ _ _ _ Hb).
    unfold bind, lift.
    by rewrite (numpy_dot_misaligned jacobian estimate (size mesh) Hne
                  (Forall_jacobian_rows _ _ _ _) Hlen).
Qed.

(** *** The grid branch followed by an extraction *)

Lemma calc_adjustment_grid_store (s s1 : state num) (d : list (string * nat))
    (estimate a : list num) :
  _data s = Some d →
  calc_adjustment estimate false s = (inr (AdjustedVector (Array a)), s1) →
  calc_adjustment estimate true s
  = (inr (AdjustedGrid d),
     with_grids (adjusted_grids d fields a (grids s)) s1).
Proof.
  intros Hd Hvec.
  destruct (calc_adjustment_vector _ _ _ _ Hvec)
    as (jacobian & a' & Hb & Hdot & Ha & _ & _ & _ & _ & Hgs).
  injection Ha as <-.
  destruct (build_jacobian_bound _ _ _ _ Hb) as (mesh & d' & Hm & Hd').
  rewrite Hd in Hd'. injection Hd' as <-.
  destruct (build_jacobian_returns estimate s mesh d Hm Hd)
    as (jacobian' & s0' & Hb' & _ & _ & Hd0 & _).
  rewrite Hb in Hb'. injection Hb' as <- <-.
  destruct (for_fields_adjust d fields a s1 Hd0) as [rest Hrest].
  unfold calc_adjustment. rewrite (bind_inr _ _ _ _ _ Hb).
  unfold bind at 1. unfold lift at 1. rewrite Hdot.
  unfold adjusted_to_grid, bind, read_global. rewrite Hd0, Hrest.
  by rewrite Hgs.
Qed.

Lemma adjusted_grids_values (d : list (string * nat)) (l : list string)
    (a : list num) (gs : nat → grid num) :
  NoDup l →
  (∀ f1 f2 g, f1 ∈ l → f2 ∈ l →
     getitem d f1 = Some g → getitem d f2 = Some g → f1 = f2) →
  concat (map (field_values (adjusted_grids d l a gs) d) l)
  = take (offset gs d l) a.
Proof.
  revert a gs. induction l as [|f l IH]; intros a gs Hnd Hdist.
  { by rewrite take_0. }
  apply NoDup_cons in Hnd as [Hnotin Hnd].
  assert (Hdist' : ∀ f1 f2 g, f1 ∈ l → f2 ∈ l →
            getitem d f1 = Some g → getitem d f2 = Some g → f1 = f2)
    by (intros f1 f2 g H1 H2; apply Hdist; by right).
  unfold offset. cbn [map concat adjusted_grids sum_list_with].
  fold (offset gs d l).
  destruct (getitem d f) as [g0|] eqn:Hg0.
  - replace (field_count gs d f) with (length (grid_x (gs g0)))
      by (unfold field_count; by rewrite Hg0).
    rewrite (IH _ _ Hnd Hdist'), offset_alter.
    unfold field_values at 1. rewrite Hg0.
    rewrite adjusted_grids_frame.
    + rewrite fn_lookup_alter. cbn [set_grid_value grid_value default].
      apply take_take_drop.
    + intros f' Hf' Hg'. apply Hnotin.
      by rewrite (Hdist f f' g0); [|left|right|..].
  - replace (field_count gs d f) with 0
      by (unfold field_count; by rewrite Hg0).
    rewrite (IH _ _ Hnd Hdist').
    unfold field_values at 1. by rewrite Hg0.
Qed.

(** X9. After a prediction with [grid=True] the observation set yields the
    prediction instead of the observations: where the components name
    distinct grid objects and the predicted vector [a] has one entry per
    observation, [extract_data_vector] on the session data afterwards
    returns [a]. *)
Theorem grid_adjustment_then_extract (s s1 : state num)
    (d : list (string * nat)) (estimate a : list num) :
  _data s = Some d →
  calc_adjustment estimate false s = (inr (AdjustedVector (Array a)), s1) →
  distinct_grids d →
  length a = offset (grids s) d fields →
  ∃ s2,
    calc_adjustment estimate true s = (inr (AdjustedGrid d), s2)
    ∧ extract_data_vector d false s2 = (inr a, s2).
Proof.
  intros Hd Hvec Hdist Hlen.
  exists (with_grids (adjusted_grids d fields a (grids s)) s1).
  split; [by apply calc_adjustment_grid_store|].
  rewrite extract_as_loop.
  destruct (extend_all_keep d fields []
              (with_grids (adjusted_grids d fields a (grids s)) s1))
    as [Hkeep _].
  assert (Hgrids : grids (with_grids (adjusted_grids d fields a (grids s)) s1)
                   = adjusted_grids d fields a (grids s))
    by (by destruct s1).
  rewrite Hgrids in Hkeep. rewrite Hkeep.
  - rewrite (adjusted_grids_values d fields a (grids s) NoDup_fields Hdist).
    by rewrite take_ge by lia.
  - intros field g Hin Hg.
    apply list_elem_of_split in Hin as (pre & post & Hsplit).
    rewrite (adjusted_grids_slices d fields a (grids s) NoDup_fields Hdist
               pre field post g Hsplit Hg).
    by eexists.
Qed.

(** *** fill_mesh and the geometry *)

Lemma filled_cells_bounds (l : list (num * nat)) (cs : nat → cell num)
    (c : nat) :
  cell_bounds (filled_cells l cs c) = cell_bounds (cs c).
Proof.
  revert cs. induction l as [|[v c0] l IH]; intros cs; [done|].
  cbn [filled_cells foldl]. change (foldl _ ?a ?l) with (filled_cells l a).
  rewrite IH. destruct (decide (c0 = c)) as [->|Hne].
  - by rewrite fn_lookup_alter.
  - by rewrite fn_lookup_alter_ne.
Qed.

Lemma jacobian_rows_bounds (cs cs' : nat → cell num) (gs : nat → grid num)
    (mesh : mesh) (d : list (string * nat)) :
  (∀ c, cell_bounds (cs' c) = cell_bounds (cs c)) →
  jacobian_rows cs' gs mesh d = jacobian_rows cs gs mesh d.
Proof.
  intros Hb. unfold jacobian_rows. f_equal. apply map_ext. intros field.
  unfold field_rows.
  destruct (getitem _calculators field) as [function|]; [|done].
  apply map_ext. intros p. unfold kernel_row. apply map_ext. intros c.
  specialize (Hb c). unfold cell_bounds in Hb.
  injection Hb as H1 H2 H3 H4 H5 H6. by rewrite H1, H2, H3, H4, H5, H6.
Qed.

(** X10. [fill_mesh] never touches the geometry: whatever the estimate and
    the mesh, also when cell objects are shared, every cell keeps its six
    bounds, so a Jacobian built from an empty cache after the mesh is filled
    is the matrix built before. *)
Theorem fill_mesh_keeps_geometry (estimate : list num) (m : mesh)
    (s : state num) :
  ∃ s',
    fill_mesh estimate m s = (inr tt, s')
    ∧ (∀ c, cell_bounds (cells s' c) = cell_bounds (cells s c))
    ∧ (∀ mesh d e,
         _mesh s = Some mesh → _data s = Some d → _jacobian s = None →
         ∃ jacobian s1 s1',
           _build_pgrav3d_jacobian e s = (inr jacobian, s1)
           ∧ _build_pgrav3d_jacobian e s' = (inr jacobian, s1')).
Proof.
  exists (with_cells (filled_cells (zip estimate (ravel m)) (cells s)) s).
  split; [exact (for_each_fill _ s)|].
  destruct s as [j ms ds dv cs gs k]. unfold with_cells.
  cbn [cells _jacobian _mesh _data _data_vector grids kernel_calls].
  split; [intros c; apply filled_cells_bounds|].
  intros mesh d e -> -> ->.
  set (cs' := filled_cells (zip estimate (ravel m)) cs).
  set (jacobian := jacobian_rows cs gs mesh d).
  exists jacobian,
    (State (Some jacobian) (Some mesh) (Some d) dv cs gs
           (k + length jacobian * size mesh)),
    (State (Some jacobian) (Some mesh) (Some d) dv cs' gs
           (k + length jacobian * size mesh)).
  split; [apply build_jacobian_fresh|].
  rewrite build_jacobian_fresh.
  by rewrite (jacobian_rows_bounds cs cs')
    by (intros c; apply filled_cells_bounds).
Qed.

(** *** residuals at the edges *)

(** X11. Where the prediction is computed, [residuals] raises [IndexError]
    on an empty dictionary, and [KeyError] on ['value'] when the grid of the
    first key has observed values but a present component has none; the
    Jacobian built for the prediction stays cached. *)
Theorem residuals_edges (s s1 : state num) (estimate : list num)
    (adjusted : adjustment num) :
  calc_adjustment estimate false s = (inr adjusted, s1) →
  residuals [] estimate s = (inl IndexError, s1)
  ∧ (∀ d key g rest,
       d = (key, g) :: rest → is_Some (grid_value (grids s g)) →
       misses_values (grids s) d →
       residuals d estimate s = (inl (KeyError "value"), s1)).
Proof.
  intros Hvec.
  destruct (calc_adjustment_vector _ _ _ _ Hvec)
    as (jacobian & a & _ & _ & _ & _ & _ & _ & _ & Hgs).
  split.
  - unfold residuals. by rewrite (bind_inr _ _ _ _ _ Hvec).
  - intros d key g rest -> [v Hv] Hmiss.
    unfold residuals. rewrite (bind_inr _ _ _ _ _ Hvec).
    cbn [fmap list_fmap fst]. unfold bind at 1. unfold ret at 1.
    unfold bind at 1. unfold lookup_field. cbn [getitem].
    rewrite decide_True by done. unfold ret at 1.
    unfold bind at 1. unfold get at 1. rewrite Hgs, Hv.
    erewrite bind_inl; [done|].
    rewrite extract_as_loop.
    destruct (extend_all_keep ((key, g) :: rest) fields [] s1) as [_ Hfail].
    apply Hfail. rewrite Hgs. destruct Hmiss as (field & g' & ? & ? & ?).
    by eauto.
Qed.

(** *** _build_pgrav3d_first_deriv at the edges *)

(** X13. On a mesh with exactly one empty axis the first-derivative builder
    raises [ValueError], the row count being negative, and leaves the state
    as it is. *)
Theorem first_deriv_rejects_empty_axis (s : state num) (m : mesh)
    (nx ny nz : nat) :
  _mesh s = Some m → shape m = (nz, ny, nx) →
  (nx = 0 ∧ 0 < ny ∧ 0 < nz) ∨ (0 < nx ∧ ny = 0 ∧ 0 < nz)
  ∨ (0 < nx ∧ 0 < ny ∧ nz = 0) →
  _build_pgrav3d_first_deriv s = (inl ValueError, s).
Proof.
  intros Hm Hshape Hcase.
  unfold _build_pgrav3d_first_deriv, bind, assert_bound, lift.
  rewrite Hm, Hshape. by rewrite first_deriv_of_shape_empty_axis.
Qed.

End MoreFacts.

(** ** The round trip through the data vector *)

Section RoundTrip.
Context {num : Type} `{NumOps num} `{Prism num}.

Lemma set_grid_value_twice (v w : option (list num)) (x : grid num) :
  set_grid_value w (set_grid_value v x) = set_grid_value w x.
Proof. by destruct x. Qed.

(** The first block of the vector of a well-formed set is the value array
    of the first component, and its length is the observation count. *)
Lemma well_formed_block (gs0 : nat → grid num) (d : list (string * nat))
    (field : string) (g : nat) :
  well_formed gs0 d → getitem d field = Some g →
  field_values gs0 d field = default [] (grid_value (gs0 g))
  ∧ grid_value (gs0 g) = Some (field_values gs0 d field)
  ∧ length (grid_x (gs0 g)) = length (field_values gs0 d field).
Proof.
  intros Hwf Hg. destruct (Hwf field g Hg) as (v & Hv & Hx & _).
  unfold field_values. rewrite Hg, Hv. by cbn.
Qed.

(** Splitting the vector of a well-formed set into a store with the same
    observation counts: an object either stays as it is or receives the
    value array it has in the store the vector was read from. *)
Lemma adjusted_grids_restore_cases (d : list (string * nat))
    (gs0 : nat → grid num) (l : list string) (rest : list num)
    (gs : nat → grid num) (g : nat) :
  well_formed gs0 d →
  (∀ field g, field ∈ l → getitem d field = Some g →
     length (grid_x (gs g)) = length (grid_x (gs0 g))) →
  adjusted_grids d l (concat (map (field_values gs0 d) l) ++ rest) gs g = gs g
  ∨ adjusted_grids d l (concat (map (field_values gs0 d) l) ++ rest) gs g
    = set_grid_value (grid_value (gs0 g)) (gs g).
Proof.
  intros Hwf. revert gs. induction l as [|f l IH]; intros gs Hlen; [by left|].
  cbn [adjusted_grids map concat].
  assert (Hlen' : ∀ v g0 field g, field ∈ l → getitem d field = Some g →
            length (grid_x (alter (set_grid_value v) g0 gs g))
            = length (grid_x (gs0 g))).
  { intros v g0 field g' Hin Hg'. rewrite grid_x_alter.
    apply (Hlen field); [by right|done]. }
  destruct (getitem d f) as [g0|] eqn:Hg0.
  2: { replace (field_values gs0 d f) with (@nil num)
         by (unfold field_values; by rewrite Hg0).
       apply IH. intros field g' Hin. apply Hlen. by right. }
  destruct (well_formed_block gs0 d f g0 Hwf Hg0) as (_ & Hv & Hx).
  rewrite (Hlen f g0) by (done || by left).
  rewrite Hx, <- app_assoc, take_app_length, drop_app_length.
  destruct (IH (alter (set_grid_value (Some (field_values gs0 d f))) g0 gs)
              (Hlen' _ _)) as [->| ->];
    (destruct (decide (g0 = g)) as [->|Hne];
     [rewrite fn_lookup_alter; right;
      rewrite ?set_grid_value_twice; by rewrite Hv
     |rewrite fn_lookup_alter_ne by done; by eauto]).
Qed.

(** Every object that a component of [l] names receives the value array it
    has in the store the vector was read from. *)
Lemma adjusted_grids_restore (d : list (string * nat))
    (gs0 : nat → grid num) (l : list string) (rest : list num)
    (gs : nat → grid num) (field : string) (g : nat) :
  well_formed gs0 d →
  (∀ field g, field ∈ l → getitem d field = Some g →
     length (grid_x (gs g)) = length (grid_x (gs0 g))) →
  field ∈ l → getitem d field = Some g →
  adjusted_grids d l (concat (map (field_values gs0 d) l) ++ rest) gs g
  = set_grid_value (grid_value (gs0 g)) (gs g).
Proof.
  intros Hwf. revert gs. induction l as [|f l IH]; intros gs Hlen Hin Hg;
    [by apply elem_of_nil in Hin|].
  cbn [adjusted_grids map concat].
  assert (Hlen' : ∀ v g0 field g, field ∈ l → getitem d field = Some g →
            length (grid_x (alter (set_grid_value v) g0 gs g))
            = length (grid_x (gs0 g))).
  { intros v g0 field' g' Hin' Hg'. rewrite grid_x_alter.
    apply (Hlen field'); [by right|done]. }
  apply elem_of_cons in Hin as [->|Hin].
  - rewrite Hg.
    destruct (well_formed_block gs0 d f g Hwf Hg) as (_ & Hv & Hx).
    rewrite (Hlen f g) by (done || by left).
    rewrite Hx, <- app_assoc, take_app_length, drop_app_length.
    destruct (adjusted_grids_restore_cases d gs0 l rest
                (alter (set_grid_value (Some (field_values gs0 d f))) g gs) g
                Hwf (Hlen' _ _)) as [->| ->];
      rewrite fn_lookup_alter, ?set_grid_value_twice; by rewrite Hv.
  - destruct (getitem d f) as [g0|] eqn:Hg0.
    2: { replace (field_values gs0 d f) with (@nil num)
           by (unfold field_values; by rewrite Hg0).
         apply IH; [|done..]. intros field' g' Hin'. apply Hlen. by right. }
    destruct (well_formed_block gs0 d f g0 Hwf Hg0) as (_ & Hv & Hx).
    rewrite (Hlen f g0) by (done || by left).
    rewrite Hx, <- app_assoc, take_app_length, drop_app_length.
    rewrite IH by (done || apply Hlen').
    destruct (decide (g0 = g)) as [->|Hne].
    + by rewrite fn_lookup_alter, set_grid_value_twice.
    + by rewrite fn_lookup_alter_ne.
Qed.

(** C2. Round trip: the vector that [extract_data_vector] builds from a
    well-formed observation set, split by the grid branch of
    [calc_adjustment] into a session bound to the same dictionary whose
    grids have the same observation counts, whatever ['value'] arrays they
    hold or lack, gives every present component the value array it was read
    from, in the dictionary of the same grids; the coordinates, the other
    objects and the globals of that session stay, and extracting again
    returns the same vector. Split into the very session it was read from,
    it changes nothing. *)
Theorem data_vector_round_trip (d : list (string * nat)) (s s2 : state num) :
  well_formed (grids s) d →
  _data s2 = Some d →
  (∀ field g, field ∈ fields → getitem d field = Some g →
     length (grid_x (grids s2 g)) = length (grid_x (grids s g))) →
  ∃ data_vector s',
    extract_data_vector d false s = (inr data_vector, s)
    ∧ adjusted_to_grid (Array data_vector) s2 = (inr d, s')
    ∧ (∀ field g, field ∈ fields → getitem d field = Some g →
         grids s' g = set_grid_value (grid_value (grids s g)) (grids s2 g))
    ∧ (∀ g, (∀ field, field ∈ fields → getitem d field ≠ Some g) →
         grids s' g = grids s2 g)
    ∧ (∀ field, field ∈ fields →
         field_values (grids s') d field = field_values (grids s) d field)
    ∧ extract_data_vector d false s' = (inr data_vector, s')
    ∧ _jacobian s' = _jacobian s2 ∧ _mesh s' = _mesh s2 ∧ _data s' = _data s2
    ∧ _data_vector s' = _data_vector s2 ∧ cells s' = cells s2
    ∧ (s2 = s → ∀ g, grids s' g = grids s g).
Proof.
  intros Hwf Hd Hlen.
  set (data_vector := concat (map (field_values (grids s) d) fields)).
  destruct (for_fields_adjust d fields data_vector s2 Hd) as [a' Ha'].
  exists data_vector, (with_grids (adjusted_grids d fields data_vector (grids s2)) s2).
  assert (Hnamed : ∀ field g, field ∈ fields → getitem d field = Some g →
            adjusted_grids d fields data_vector (grids s2) g
            = set_grid_value (grid_value (grids s g)) (grids s2 g)).
  { intros field g Hin Hg. unfold data_vector.
    rewrite <- (app_nil_r (concat _)).
    by apply (adjusted_grids_restore d (grids s) fields [] (grids s2) field g). }
  assert (Hvalues : ∀ field, field ∈ fields →
            field_values (adjusted_grids d fields data_vector (grids s2)) d field
            = field_values (grids s) d field).
  { intros field Hin. unfold field_values.
    destruct (getitem d field) as [g|] eqn:Hg; [|done].
    by rewrite (Hnamed field g Hin Hg). }
  split; [by apply extract_data_vector_values, well_formed_carries|].
  split.
  { unfold adjusted_to_grid, bind, read_global. rewrite Hd, Ha'. by unfold ret. }
  revert Hnamed Hvalues.
  generalize (adjusted_grids_frame d fields data_vector (grids s2)).
  generalize (adjusted_grids_restore_cases d (grids s) fields [] (grids s2)).
  rewrite (app_nil_r (concat _)). fold data_vector.
  generalize (adjusted_grids d fields data_vector (grids s2)).
  intros gs' Hcases Hframe Hnamed Hvalues. clear Ha'.
  destruct s2 as [j m ds dv cs gs k]. unfold with_grids.
  cbn [grids _jacobian _mesh _data _data_vector cells kernel_calls] in *.
  split; [exact Hnamed|]. split; [exact Hframe|]. split; [exact Hvalues|].
  split.
  { rewrite extract_as_loop.
    destruct (extend_all_keep d fields [] (State j m ds dv cs gs' k))
      as [Hkeep _].
    rewrite Hkeep.
    - cbn [app grids]. unfold data_vector. do 3 f_equal.
      apply map_ext_in. intros field Hin. apply Hvalues.
      by apply list_elem_of_In.
    - cbn [grids]. intros field g Hin Hg. rewrite (Hnamed field g Hin Hg).
      destruct (Hwf field g Hg) as (v & -> & _). by eexists. }
  do 5 (split; [done|]).
  intros <- g. cbn [grids].
  destruct (Hcases g Hwf) as [->| ->]; [by cbn [grids]|done|].
  cbn [grids]. by destruct (gs g).
Qed.

End RoundTrip.

(** ** The properties on the example session *)

Section Witnesses.
Import Example.

Lemma well_formed_data2 : well_formed grids2 data2.
Proof.
  intros field g Hg. cbn in Hg.
  repeat case_decide; simplify_eq; by eexists.
Qed.

Lemma distinct_data2 (f1 f2 : string) (g : nat) :
  f1 ∈ fields → f2 ∈ fields →
  getitem data2 f1 = Some g → getitem data2 f2 = Some g → f1 = f2.
Proof.
  intros _ _ H1 H2. cbn in H1, H2.
  repeat case_decide; simplify_eq; done.
Qed.

Lemma valid_keys_data2 (key : string) : key ∈ data2.*1 → key ∈ fields.
Proof.
  cbn. rewrite !elem_of_cons, elem_of_nil. unfold fields.
  intros [->|[->|[]]]; apply (bool_decide_unpack _); by vm_compute.
Qed.

Lemma jacobian_built_once_witness :
  _mesh bound = Some mesh4 ∧ _data bound = Some data2
  ∧ ∃ s1, _build_pgrav3d_jacobian [1; 0; 0; 0]%Z bound = (inr jacobian2, s1)
          ∧ _build_pgrav3d_jacobian [0; 5; 0; 0]%Z s1 = (inr jacobian2, s1)
          ∧ kernel_calls s1 = 12.
Proof.
  split; [reflexivity|]. split; [reflexivity|].
  destruct (jacobian_built_once bound mesh4 data2 [1; 0; 0; 0]%Z [0; 5; 0; 0]%Z
              eq_refl eq_refl)
    as (jacobian & s1 & H1 & _ & H3 & _ & Hfresh & _).
  destruct (Hfresh eq_refl) as [-> Hcalls].
  exists s1. split; [exact H1|]. split; [exact H3|]. exact Hcalls.
Defined.

Lemma same_counts_emptied (field : string) (g : nat) :
  field ∈ fields → getitem data2 field = Some g →
  length (grid_x (grids emptied g)) = length (grid_x (grids bound g)).
Proof.
  intros _ Hg. cbn in Hg. repeat case_decide; simplify_eq; reflexivity.
Qed.

Lemma data_vector_round_trip_witness :
  well_formed (grids bound) data2 ∧ _data emptied = Some data2
  ∧ (∀ field g, field ∈ fields → getitem data2 field = Some g →
       length (grid_x (grids emptied g)) = length (grid_x (grids bound g)))
  ∧ grid_value (grids emptied 0) = None ∧ grid_value (grids emptied 1) = None
  ∧ ∃ s', extract_data_vector data2 false bound = (inr [5; 7; 4]%Z, bound)
          ∧ adjusted_to_grid (Array [5; 7; 4]%Z) emptied = (inr data2, s')
          ∧ grid_value (grids s' 0) = Some [5; 7]%Z
          ∧ grid_value (grids s' 1) = Some [4]%Z
          ∧ extract_data_vector data2 false s' = (inr [5; 7; 4]%Z, s').
Proof.
  split; [exact well_formed_data2|]. split; [reflexivity|].
  split; [exact same_counts_emptied|]. split; [reflexivity|].
  split; [reflexivity|].
  destruct (data_vector_round_trip data2 bound emptied well_formed_data2
              eq_refl same_counts_emptied)
    as (data_vector & s' & Hextract & Hsplit & Hnamed & _ & _ & Hagain & _).
  assert (Hdv : data_vector = [5; 7; 4]%Z).
  { change (extract_data_vector data2 false bound)
      with (@inr error _ [5; 7; 4]%Z, bound) in Hextract.
    by injection Hextract. }
  subst data_vector. exists s'.
  assert (Hgz : "gz"%string ∈ fields)
    by (apply (bool_decide_unpack _); by vm_compute).
  assert (Hgzz : "gzz"%string ∈ fields)
    by (apply (bool_decide_unpack _); by vm_compute).
  split; [exact Hextract|]. split; [exact Hsplit|].
  rewrite (Hnamed "gz"%string 0 Hgz eq_refl).
  rewrite (Hnamed "gzz"%string 1 Hgzz eq_refl).
  split; [reflexivity|]. split; [reflexivity|]. exact Hagain.
Defined.

Lemma first_deriv_operator_witness :
  _mesh bound = Some mesh4 ∧ shape mesh4 = (1, 2, 2)
  ∧ ∃ first_deriv,
      _build_pgrav3d_first_deriv bound = (inr first_deriv, bound)
      ∧ length first_deriv = 4
      ∧ first_deriv !! 0 = Some [1; -1; 0; 0]%Z
      ∧ first_deriv !! 2 = Some [1; 0; -1; 0]%Z.
Proof.
  split; [reflexivity|]. split; [reflexivity|].
  destruct (first_deriv_operator bound mesh4 2 2 1 eq_refl eq_refl)
    as (first_deriv & Hbuild & Hlen & _ & Hx & Hy & _); [lia..|].
  exists first_deriv. split; [exact Hbuild|]. split; [exact Hlen|].
  split; [apply (Hx 0 0 0); lia | apply (Hy 0 0 0); lia].
Defined.

Lemma canonical_order_witness :
  _mesh bound = Some mesh4 ∧ _data bound = Some data2
  ∧ _jacobian bound = None ∧ well_formed (grids bound) data2
  ∧ ∃ data_vector jacobian s1,
      extract_data_vector data2 false bound = (inr data_vector, bound)
      ∧ _build_pgrav3d_jacobian [] bound = (inr jacobian, s1)
      ∧ data_vector !! 2 = Some 4%Z
      ∧ jacobian !! 2 = Some [1; 2; 3; 4]%Z.
Proof.
  split; [reflexivity|]. split; [reflexivity|]. split; [reflexivity|].
  split; [exact well_formed_data2|].
  destruct (canonical_order bound mesh4 data2 [] eq_refl eq_refl eq_refl
              well_formed_data2)
    as (data_vector & jacobian & s1 & Hextract & Hbuild & _ & _ & _ & Hrows).
  destruct (Hrows ["gz"; "gxx"; "gxy"; "gxz"; "gyy"; "gyz"]%string "gzz"%string
              [] 1 eq_refl eq_refl)
    as (function & values & Hf & Hv & Hentries).
  injection Hf as <-. injection Hv as <-.
  destruct (Hentries 0) as (v & x & y & z & Hv0 & Hx0 & Hy0 & Hz0 & Hd & Hj);
    [cbn; lia|].
  injection Hv0 as <-. injection Hx0 as <-. injection Hy0 as <-.
  injection Hz0 as <-.
  exists data_vector, jacobian, s1.
  split; [exact Hextract|]. split; [exact Hbuild|].
  split; [exact Hd|exact Hj].
Defined.

Lemma solve_rejects_invalid_component_witness :
  "foo"%string ∈ data_foo.*1 ∧ ("foo"%string ∉ fields)
  ∧ ∃ bad,
      solve immediate data_foo mesh4 None no_regularization 5 1%Z 10%Z 3
            cleared
      = (inl (InvalidComponentError bad), cleared).
Proof.
  assert (H1 : "foo"%string ∈ data_foo.*1)
    by (apply (bool_decide_unpack _); by vm_compute).
  assert (H2 : "foo"%string ∉ fields)
    by (apply (bool_decide_unpack _); by vm_compute).
  split; [exact H1|]. split; [exact H2|].
  destruct (solve_rejects_invalid_component immediate data_foo mesh4 None
              no_regularization 5 1%Z 10%Z 3 cleared "foo"%string H1 H2)
    as (bad & _ & _ & Hsolve).
  exists bad. exact Hsolve.
Defined.

Lemma residuals_observed_minus_predicted_witness :
  calc_adjustment [1; 0; 0; 0]%Z false bound
  = (inr (AdjustedVector (Array [1; 2; 1]%Z)), bound_cached)
  ∧ data2 = ("gzz"%string, 1) :: [("gz"%string, 0)]
  ∧ residuals data2 [1; 0; 0; 0]%Z bound = (inr [4; 5; 3]%Z, bound_cached)
  ∧ residuals data2 [1; 0; 0; 0]%Z bound_no_values
    = (inl (MissingObservedValuesError "gzz"), bound_no_values_cached).
Proof.
  assert (Hcalc : calc_adjustment [1; 0; 0; 0]%Z false bound
                  = (inr (AdjustedVector (Array [1; 2; 1]%Z)), bound_cached))
    by reflexivity.
  assert (Hcalc' : calc_adjustment [1; 0; 0; 0]%Z false bound_no_values
                   = (inr (AdjustedVector (Array [1; 2; 1]%Z)),
                      bound_no_values_cached))
    by reflexivity.
  split; [exact Hcalc|]. split; [reflexivity|]. split.
  - destruct (residuals_observed_minus_predicted bound bound_cached data2
                [("gz"%string, 0)] "gzz"%string 1 [1; 0; 0; 0]%Z
                (AdjustedVector (Array [1; 2; 1]%Z)) Hcalc eq_refl)
      as (Hvalues & _).
    apply Hvalues; [by eexists|].
    apply well_formed_carries, well_formed_data2.
  - destruct (residuals_observed_minus_predicted bound_no_values
                bound_no_values_cached data2 [("gz"%string, 0)] "gzz"%string 1
                [1; 0; 0; 0]%Z (AdjustedVector (Array [1; 2; 1]%Z))
                Hcalc' eq_refl)
      as (_ & _ & Hmissing & _).
    apply Hmissing; reflexivity.
Defined.

Lemma solve_goals_non_increasing_witness :
  solve (lm_spec no_penalty first_residual_step 0%Z) data2 mesh4
        (Some [0; 0; 0; 0]%Z) no_regularization 5 1%Z 10%Z 3 cleared
  = (inr ([5; 0; 0; 0]%Z, [90; 10]%Z), solved)
  ∧ non_increasing [90; 10]%Z.
Proof.
  assert (Hrun :
    solve (lm_spec no_penalty first_residual_step 0%Z) data2 mesh4
          (Some [0; 0; 0; 0]%Z) no_regularization 5 1%Z 10%Z 3 cleared
    = (inr ([5; 0; 0; 0]%Z, [90; 10]%Z), solved)) by (vm_compute; reflexivity).
  split; [exact Hrun|].
  exact (solve_goals_non_increasing _ _ _ _ _ _ _ _ _ _ _ _ _ _ _ Hrun).
Defined.

Lemma solve_rejects_dimension_mismatch_witness :
  (∀ key, key ∈ data2.*1 → key ∈ fields)
  ∧ carries_values (grids cleared) data2
  ∧ length [0; 0; 0]%Z ≠ size mesh4
  ∧ ∃ s', solve (lm_spec no_penalty first_residual_step 0%Z) data2 mesh4
                (Some [0; 0; 0]%Z) no_regularization 5 1%Z 10%Z 3 cleared
          = (inl DimensionMismatchError, s').
Proof.
  assert (Hcarry : carries_values (grids cleared) data2)
    by apply well_formed_carries, well_formed_data2.
  assert (Hlen : length [0; 0; 0]%Z ≠ size mesh4) by (cbn; lia).
  split; [exact valid_keys_data2|]. split; [exact Hcarry|].
  split; [exact Hlen|].
  destruct (solve_rejects_dimension_mismatch no_penalty first_residual_step
              0%Z data2 mesh4 [0; 0; 0]%Z no_regularization 5 1%Z 10%Z 3
              cleared valid_keys_data2 Hcarry Hlen)
    as (s' & Hsolve & _).
  exists s'. exact Hsolve.
Defined.

Lemma grid_adjustment_overwrites_witness :
  _data bound = Some data2
  ∧ calc_adjustment [1; 0; 0; 0]%Z false bound
    = (inr (AdjustedVector (Array [1; 2; 1]%Z)), bound_cached)
  ∧ ∃ s2,
      calc_adjustment [1; 0; 0; 0]%Z true bound = (inr (AdjustedGrid data2), s2)
      ∧ grid_value (grids bound 0) = Some [5; 7]%Z
      ∧ grid_value (grids s2 0) = Some [1; 2]%Z
      ∧ grid_value (grids bound 1) = Some [4]%Z
      ∧ grid_value (grids s2 1) = Some [1]%Z.
Proof.
  assert (Hcalc : calc_adjustment [1; 0; 0; 0]%Z false bound
                  = (inr (AdjustedVector (Array [1; 2; 1]%Z)), bound_cached))
    by reflexivity.
  split; [reflexivity|]. split; [exact Hcalc|].
  destruct (grid_adjustment_overwrites bound bound_cached data2
              [1; 0; 0; 0]%Z [1; 2; 1]%Z eq_refl Hcalc distinct_data2)
    as (s2 & Hgrid & _ & Hvalues & _).
  exists s2. split; [exact Hgrid|]. split; [reflexivity|].
  split; [|split; [reflexivity|]].
  - exact (Hvalues [] "gz"%string
             ["gxx"; "gxy"; "gxz"; "gyy"; "gyz"; "gzz"]%string 0
             eq_refl eq_refl).
  - exact (Hvalues ["gz"; "gxx"; "gxy"; "gxz"; "gyy"; "gyz"]%string
             "gzz"%string [] 1 eq_refl eq_refl).
Defined.


(** *** The edges of the statements *)

(** On a session without a bound mesh [residuals] fails in the Jacobian
    builder, before it looks at the observed values. *)
Example residuals_unbound :
  residuals data2 [1; 0; 0; 0]%Z cleared = (inl MissingMeshError, cleared).
Proof. reflexivity. Qed.

(** A call of [solve] on data without observed values fails in the
    extraction, after the mesh and the data are bound: the state in which
    [residuals] misses the observed values and the cached vector. *)
Example solve_without_values :
  solve immediate data2 mesh4 None no_regularization 5 1%Z 10%Z 3
        cleared_no_values
  = (inl (KeyError "value"), bound_no_values).
Proof. reflexivity. Qed.

(** A mesh of one cell has no adjacent pairs; a mesh with an empty axis
    makes the row count negative. *)
Example first_deriv_single_cell :
  FirstDeriv.first_deriv_of_shape 1 1 1 = inr [].
Proof. reflexivity. Qed.

Example first_deriv_empty_axis :
  FirstDeriv.first_deriv_of_shape 0 1 1 = inl ValueError.
Proof. reflexivity. Qed.

(** The in-place extraction deletes the observed values it has read. *)
Example extract_inplace :
  ∃ s', extract_data_vector data2 true bound = (inr [5; 7; 4]%Z, s')
        ∧ grid_value (grids s' 0) = None ∧ grid_value (grids s' 1) = None.
Proof. eexists. split; [reflexivity|]. split; reflexivity. Qed.

(** A prediction whose shape does not fit the estimate is rejected by the
    matrix product. *)
Example calc_adjustment_misaligned :
  calc_adjustment [1; 0; 0]%Z false bound = (inl ValueError, bound_cached).
Proof. reflexivity. Qed.

End Witnesses.

(** ** The further properties on the example session *)

Section MoreWitnesses.
Import Example.

Lemma components_carry_data2 : components_carry_values grids2 data2.
Proof.
  intros field g _ Hg. cbn in Hg.
  repeat case_decide; simplify_eq; by eexists.
Qed.

Lemma misses_values_mixed : misses_values grids_mixed data2.
Proof.
  exists "gz"%string, 0. split; [|split; reflexivity].
  apply (bool_decide_unpack _). by vm_compute.
Qed.

Lemma carries_values_data_gz : carries_values grids2 data_gz.
Proof.
  intros field g Hg. cbn in Hg. case_decide; simplify_eq. by eexists.
Qed.

Lemma valid_keys_data_gz (key : string) : key ∈ data_gz.*1 → key ∈ fields.
Proof.
  cbn. rewrite elem_of_cons, elem_of_nil.
  intros [->|[]]. apply (bool_decide_unpack _). by vm_compute.
Qed.

Lemma data_foo_agrees (field : string) :
  field ∈ fields → getitem data_foo field = getitem data_gz field.
Proof.
  intros Hin. cbn. case_decide; [done|]. case_decide; [|done]. subst.
  exfalso. revert Hin. apply (bool_decide_unpack _). by vm_compute.
Qed.

Lemma extract_missing_value_witness :
  misses_values (grids bound_mixed) data2
  ∧ extract_data_vector data2 false bound_mixed
    = (inl (KeyError "value"), bound_mixed)
  ∧ components_carry_values (grids bound) data2
  ∧ extract_data_vector data2 false bound = (inr [5; 7; 4]%Z, bound).
Proof.
  split; [exact misses_values_mixed|].
  split; [exact (proj1 (extract_missing_value data2 bound_mixed)
                   misses_values_mixed)|].
  split; [exact components_carry_data2|].
  exact (proj2 (extract_missing_value data2 bound) components_carry_data2).
Defined.

Lemma extract_inplace_deletes_witness :
  components_carry_values (grids bound) data2 ∧ distinct_grids data2
  ∧ ∃ s', extract_data_vector data2 true bound = (inr [5; 7; 4]%Z, s')
          ∧ grid_value (grids s' 0) = None
          ∧ grid_x (grids s' 0) = [1; 2]%Z
          ∧ extract_data_vector data2 false s' = (inl (KeyError "value"), s').
Proof.
  split; [exact components_carry_data2|]. split; [exact distinct_data2|].
  destruct (extract_inplace_deletes data2 bound components_carry_data2
              distinct_data2)
    as (s' & Htrue & _ & Hnamed & _ & _ & _ & _ & _ & _ & Hagain).
  exists s'. split; [exact Htrue|].
  assert (Hgz : "gz"%string ∈ fields)
    by (apply (bool_decide_unpack _); by vm_compute).
  rewrite (Hnamed "gz"%string 0 Hgz eq_refl).
  split; [reflexivity|]. split; [reflexivity|].
  apply Hagain. exists "gz"%string. split; [exact Hgz|]. by eexists.
Defined.

Lemma unknown_keys_ignored_witness :
  (∀ field, field ∈ fields → getitem data_foo field = getitem data_gz field)
  ∧ extract_data_vector data_foo false cleared
    = extract_data_vector data_gz false cleared
  ∧ ∃ jacobian s1 s1',
      _build_pgrav3d_jacobian []
        (State None (Some mesh4) (Some data_foo) None cells4 grids2 0)
      = (inr jacobian, s1)
      ∧ _build_pgrav3d_jacobian []
          (State None (Some mesh4) (Some data_gz) None cells4 grids2 0)
        = (inr jacobian, s1').
Proof.
  split; [exact data_foo_agrees|].
  destruct (unknown_keys_ignored data_foo data_gz mesh4 [] false None cells4
              grids2 0 data_foo_agrees)
    as (Hextract & jacobian & Hfoo & Hgz).
  split; [exact (Hextract cleared)|].
  exists jacobian. eexists _, _. split; [exact Hfoo|exact Hgz].
Defined.

Lemma solve_keeps_cache_witness :
  (∀ key, key ∈ data_gz.*1 → key ∈ fields)
  ∧ carries_values (grids solved) data_gz
  ∧ solve immediate data_gz mesh4 None no_regularization 5 1%Z 10%Z 3 solved
    = (inr (replicate 4 0%Z, []), rebound)
  ∧ _build_pgrav3d_jacobian [] rebound = (inr jacobian2, rebound).
Proof.
  split; [exact valid_keys_data_gz|]. split; [exact carries_values_data_gz|].
  destruct (solve_keeps_cache immediate data_gz mesh4 None no_regularization
              5 1%Z 10%Z 3 solved valid_keys_data_gz carries_values_data_gz)
    as (Hsolve & Hstale & _).
  split; [exact Hsolve|]. exact (Hstale jacobian2 [] eq_refl).
Defined.

Lemma solve_binds_before_extraction_witness :
  (∀ key, key ∈ data2.*1 → key ∈ fields)
  ∧ misses_values (grids cleared_mixed) data2
  ∧ solve immediate data2 mesh4 None no_regularization 5 1%Z 10%Z 3
          cleared_mixed
    = (inl (KeyError "value"), bound_mixed).
Proof.
  split; [exact valid_keys_data2|]. split; [exact misses_values_mixed|].
  exact (solve_binds_before_extraction immediate data2 mesh4 None
           no_regularization 5 1%Z 10%Z 3 cleared_mixed valid_keys_data2
           misses_values_mixed).
Defined.

Lemma jacobian_shape_witness :
  _mesh bound = Some mesh4 ∧ _data bound = Some data2 ∧ _jacobian bound = None
  ∧ ∃ jacobian s1,
      _build_pgrav3d_jacobian [] bound = (inr jacobian, s1)
      ∧ Forall (fun row => length row = 4) jacobian
      ∧ length jacobian = 3.
Proof.
  split; [reflexivity|]. split; [reflexivity|]. split; [reflexivity|].
  destruct (jacobian_shape bound mesh4 data2 [] eq_refl eq_refl eq_refl)
    as (jacobian & s1 & Hbuild & Hrows & Hlen & _).
  exists jacobian, s1. split; [exact Hbuild|]. split; [exact Hrows|exact Hlen].
Defined.

Lemma calc_adjustment_alignment_witness :
  _mesh bound = Some mesh4 ∧ _data bound = Some data2 ∧ _jacobian bound = None
  ∧ jacobian_rows (cells bound) (grids bound) mesh4 data2 ≠ []
  ∧ calc_adjustment [1; 0; 0; 0]%Z false bound
    = (inr (AdjustedVector (Array [1; 2; 1]%Z)), bound_cached)
  ∧ calc_adjustment [1; 0; 0]%Z true bound = (inl ValueError, bound_cached).
Proof.
  assert (Hne : jacobian_rows (cells bound) (grids bound) mesh4 data2 ≠ [])
    by (intros Heq; vm_compute in Heq; discriminate Heq).
  split; [reflexivity|]. split; [reflexivity|]. split; [reflexivity|].
  split; [exact Hne|].
  destruct (calc_adjustment_alignment bound mesh4 data2 [1; 0; 0; 0]%Z
              eq_refl eq_refl eq_refl Hne) as [Hfit _].
  destruct (calc_adjustment_alignment bound mesh4 data2 [1; 0; 0]%Z
              eq_refl eq_refl eq_refl Hne) as [_ Hmis].
  split; [exact (Hfit eq_refl)|].
  apply Hmis. cbn. lia.
Defined.

Lemma grid_adjustment_then_extract_witness :
  _data bound = Some data2
  ∧ calc_adjustment [1; 0; 0; 0]%Z false bound
    = (inr (AdjustedVector (Array [1; 2; 1]%Z)), bound_cached)
  ∧ distinct_grids data2
  ∧ length [1; 2; 1]%Z = offset (grids bound) data2 fields
  ∧ extract_data_vector data2 false bound = (inr [5; 7; 4]%Z, bound)
  ∧ ∃ s2,
      calc_adjustment [1; 0; 0; 0]%Z true bound = (inr (AdjustedGrid data2), s2)
      ∧ extract_data_vector data2 false s2 = (inr [1; 2; 1]%Z, s2).
Proof.
  assert (Hcalc : calc_adjustment [1; 0; 0; 0]%Z false bound
                  = (inr (AdjustedVector (Array [1; 2; 1]%Z)), bound_cached))
    by reflexivity.
  assert (Hlen : length [1; 2; 1]%Z = offset (grids bound) data2 fields)
    by reflexivity.
  split; [reflexivity|]. split; [exact Hcalc|]. split; [exact distinct_data2|].
  split; [exact Hlen|]. split; [reflexivity|].
  exact (grid_adjustment_then_extract bound bound_cached data2 [1; 0; 0; 0]%Z
           [1; 2; 1]%Z eq_refl Hcalc distinct_data2 Hlen).
Defined.

Lemma fill_mesh_keeps_geometry_witness :
  ∃ s', fill_mesh [9; 8]%Z mesh4 bound = (inr tt, s')
        ∧ cell_value (cells s' 0) = Some 9%Z
        ∧ ∃ s1', _build_pgrav3d_jacobian [] s' = (inr jacobian2, s1').
Proof.
  destruct (fill_mesh_keeps_geometry [9; 8]%Z mesh4 bound)
    as (s' & Hfill & _ & Hsame).
  destruct (Hsame mesh4 data2 [] eq_refl eq_refl eq_refl)
    as (jacobian & s1 & s1' & Hbefore & Hafter).
  assert (Hj : jacobian = jacobian2).
  { change (_build_pgrav3d_jacobian [] bound)
      with (@inr error _ jacobian2, bound_cached) in Hbefore.
    by injection Hbefore. }
  subst jacobian. exists s'. split; [exact Hfill|]. split.
  - change (fill_mesh [9; 8]%Z mesh4 bound)
      with (@inr error _ tt,
            with_cells (filled_cells (zip [9; 8]%Z (ravel mesh4)) cells4) bound)
      in Hfill.
    injection Hfill as <-. reflexivity.
  - exists s1'. exact Hafter.
Defined.

Lemma residuals_edges_witness :
  calc_adjustment [1; 0; 0; 0]%Z false bound_mixed
  = (inr (AdjustedVector (Array [1; 2; 1]%Z)), bound_mixed_cached)
  ∧ residuals [] [1; 0; 0; 0]%Z bound_mixed = (inl IndexError, bound_mixed_cached)
  ∧ residuals data2 [1; 0; 0; 0]%Z bound_mixed
    = (inl (KeyError "value"), bound_mixed_cached).
Proof.
  assert (Hcalc : calc_adjustment [1; 0; 0; 0]%Z false bound_mixed
                  = (inr (AdjustedVector (Array [1; 2; 1]%Z)),
                     bound_mixed_cached))
    by reflexivity.
  destruct (residuals_edges bound_mixed bound_mixed_cached [1; 0; 0; 0]%Z _
              Hcalc) as [Hempty Hmixed].
  split; [exact Hcalc|]. split; [exact Hempty|].
  apply (Hmixed data2 "gzz"%string 1 [("gz"%string, 0)] eq_refl).
  - by eexists.
  - exact misses_values_mixed.
Defined.

Lemma first_deriv_rejects_empty_axis_witness :
  _mesh bound_empty_axis = Some mesh_empty_axis
  ∧ shape mesh_empty_axis = (1, 2, 0)
  ∧ _build_pgrav3d_first_deriv bound_empty_axis
    = (inl ValueError, bound_empty_axis).
Proof.
  split; [reflexivity|]. split; [reflexivity|].
  apply (first_deriv_rejects_empty_axis bound_empty_axis mesh_empty_axis 0 2 1
           eq_refl eq_refl).
  left. lia.
Defined.

End MoreWitnesses.
